(** * thrill/common/json_logger.hpp: the JSON line logger

    A shallow embedding of [JsonLogger] and [JsonLine] and the properties of
    the records they write.

    Conventions of the embedding:
    - a [char] is an [ascii], a [std::string] and the contents of a stream
      are a [text] (a list of characters);
    - [size_t] is an unsigned 64-bit integer, held in [Z] with its
      wrap-around written out;
    - a [JsonLine] holds nothing but the reference [logger_]; the loggers
      live in a store indexed by address, so that two [JsonLine] objects may
      refer to the same logger;
    - [std::cout] is a character device that accepts a bounded number of
      characters ([room]) and raises its [badbit] at the first character it
      cannot take; it throws nothing (the exception mask of [std::cout] is
      empty);
    - [assert] is the one of <cassert> without NDEBUG: a failed assertion
      aborts the program;
    - a function that returns its local [JsonLine] constructs it in the
      place of the return value, as compilers do; what happens otherwise is
      [JsonLogger_line_not_elided];
    - the stream [oss_] of a logger holds the locale that was global when
      the logger was constructed; the overloads of [Put] for numbers are
      given for the classic locale, the global locale of a program that sets
      no other, and for any locale ([Put_integer_in], [Put_double_in]);
    - code whose behaviour C++ leaves undefined (reading a C string past the
      end of its array) has the outcome [Undefined]. *)

From Stdlib Require Import ZArith List Ascii String Bool Lia DecimalString.
From Stdlib Require Import Floats.SpecFloat QArith Qabs.
From Stdlib Require DecimalPos DecimalZ.
Import ListNotations.
Local Close Scope Q_scope.
Local Open Scope Z_scope.

(** ** Characters and text *)

Definition text := list ascii.

(** The characters of a literal, without any terminator. *)
Definition lit (s : string) : text := list_ascii_of_string s.

Definition NUL : ascii := "000"%char.
Definition BS : ascii := "008"%char.       (* backspace *)
Definition TAB : ascii := "009"%char.      (* horizontal tab *)
Definition LF : ascii := "010"%char.       (* newline *)
Definition FF : ascii := "012"%char.       (* form feed *)
Definition CR : ascii := "013"%char.       (* carriage return *)
Definition DQUOTE : ascii := "034"%char.   (* double quote *)
Definition SLASH : ascii := "/"%char.
Definition BACKSLASH : ascii := "\"%char.

(** The array a string literal denotes: its characters and a final NUL. *)
Definition c_literal (s : string) : text := lit s ++ [NUL].

(** Decimal digits of an integer, with a minus sign when negative: what
    [operator<<] of a stream with the classic locale writes for the integer
    types. *)
Definition dec (z : Z) : text := lit (NilZero.string_of_int (Z.to_int z)).

(** ** Floating point: the default format of a stream

    [oss_ << value] for a [double] goes through the stream's defaults:
    precision 6, no float-field flag, which is the conversion [%g] of
    printf. A finite double is [m * 2^e]; it is rounded to [P] significant
    decimal digits (to nearest, ties to even) and written in fixed notation
    when its decimal exponent [X] satisfies [-4 <= X < P], in scientific
    notation otherwise; trailing zeros of the fraction are dropped, and the
    point with them when nothing is left. This is the text in the classic
    locale. [S754_nan] stands for a NaN whose sign bit is clear; printf
    writes one whose sign bit is set with a minus sign, and [spec_float]
    does not tell the two apart. *)

Definition double := spec_float.

(** The value of a finite double as a fraction [num / den]. *)
Definition frac_of (m : positive) (e : Z) : Z * Z :=
  if 0 <=? e then (Zpos m * 2 ^ e, 1) else (Zpos m, 2 ^ (- e)).

Fixpoint exp_up (fuel : nat) (num den x : Z) : Z :=
  match fuel with
  | O => x
  | S f => if den * 10 <=? num then exp_up f num (den * 10) (x + 1) else x
  end.

Fixpoint exp_down (fuel : nat) (num den x : Z) : Z :=
  match fuel with
  | O => x
  | S f => if num <? den then exp_down f (num * 10) den (x - 1) else x
  end.

(** The decimal exponent of [num / den]: the [X] with
    [10^X <= num / den < 10^(X+1)]. *)
Definition dec_exponent (num den : Z) : Z :=
  if den <=? num
  then exp_up (S (Z.to_nat (Z.log2 num))) num den 0
  else exp_down (S (S (Z.to_nat (Z.log2 den)))) num den 0.

(** Nearest integer to [num / den], ties to the even one. *)
Definition round_half_even (num den : Z) : Z :=
  let q := num / den in
  let r := num mod den in
  if 2 * r <? den then q
  else if den <? 2 * r then q + 1
  else if Z.even q then q else q + 1.

(** [num / den] scaled to [P] digits before the point, and rounded. *)
Definition sig_digits (P num den X : Z) : Z :=
  let s := P - 1 - X in
  if 0 <=? s then round_half_even (num * 10 ^ s) den
  else round_half_even num (den * 10 ^ (- s)).

(** The digits and the exponent after rounding; rounding up to [10^P]
    moves the exponent. *)
Definition round_sig (P num den : Z) : Z * Z :=
  let X0 := dec_exponent num den in
  let q0 := sig_digits P num den X0 in
  if 10 ^ P <=? q0 then (q0 / 10, X0 + 1) else (q0, X0).

Definition digit (d : Z) : ascii := ascii_of_nat (48 + Z.to_nat d).

(** [r] written with exactly [w] digits. *)
Fixpoint pad_digits (w : nat) (r : Z) : text :=
  match w with
  | O => []
  | S w' => pad_digits w' (r / 10) ++ [digit (r mod 10)]
  end.

(** The fraction [r] of [w] digits without its trailing zeros, after a
    point; nothing at all when [r] is zero. *)
Fixpoint frac_part (w : nat) (r : Z) : text :=
  match w with
  | O => []
  | S w' => if r mod 10 =? 0 then frac_part w' (r / 10)
            else "."%char :: pad_digits w r
  end.

(** [q * 10^(-s)] in fixed notation. *)
Definition fixed_text (q s : Z) : text :=
  dec (q / 10 ^ s) ++ frac_part (Z.to_nat s) (q mod 10 ^ s).

(** The exponent of scientific notation: a sign and two digits at least. *)
Definition exp_text (X : Z) : text :=
  "e"%char :: (if X <? 0 then "-"%char else "+"%char)
           :: (if Z.abs X <? 10 then "0"%char :: dec (Z.abs X) else dec (Z.abs X)).

Definition fmt_g (P num den : Z) : text :=
  let '(q, X) := round_sig P num den in
  if (-4 <=? X) && (X <? P) then fixed_text q (P - 1 - X)
  else fixed_text q (P - 1) ++ exp_text X.

Definition sign_text (s : bool) : text := if s then lit "-" else [].

(** The default precision of a stream. *)
Definition default_precision : Z := 6.

Definition fmt_double (d : double) : text :=
  match d with
  | S754_zero s => sign_text s ++ lit "0"
  | S754_infinity s => sign_text s ++ lit "inf"
  | S754_nan => lit "nan"
  | S754_finite s m e =>
      let '(num, den) := frac_of m e in
      sign_text s ++ fmt_g default_precision num den
  end.

(** ** JsonLogger: the collector stream and the elements counter *)

Definition SIZE_MAX_plus_1 : Z := 2 ^ 64.

Record JsonLogger := mkJsonLogger {
  oss_ : text;        (* std::ostringstream oss_: the characters collected *)
  elements_ : Z       (* size_t elements_ *)
}.

(** [oss_ << ch] and [oss_ << str]. *)
Definition oss_put (ch : ascii) (lg : JsonLogger) : JsonLogger :=
  mkJsonLogger (oss_ lg ++ [ch]) (elements_ lg).

Definition oss_write (s : text) (lg : JsonLogger) : JsonLogger :=
  mkJsonLogger (oss_ lg ++ s) (elements_ lg).

(** [JsonLine::PutSeparator]. *)
Definition PutSeparator (lg : JsonLogger) : JsonLogger :=
  let lg1 :=
    if 0 <? elements_ lg
    then oss_put (if elements_ lg mod 2 =? 0 then ","%char else ":"%char) lg
    else lg in
  mkJsonLogger (oss_ lg1) ((elements_ lg1 + 1) mod SIZE_MAX_plus_1).

(** [JsonLine::PutEscapedChar]. *)
Definition PutEscapedChar (ch : ascii) (lg : JsonLogger) : JsonLogger :=
  if (ch =? BACKSLASH)%char then oss_put BACKSLASH (oss_put BACKSLASH lg)
  else if (ch =? DQUOTE)%char then oss_put DQUOTE (oss_put BACKSLASH lg)
  else if (ch =? SLASH)%char then oss_put SLASH (oss_put BACKSLASH lg)
  else if (ch =? BS)%char then oss_put "b"%char (oss_put BACKSLASH lg)
  else if (ch =? FF)%char then oss_put "f"%char (oss_put BACKSLASH lg)
  else if (ch =? LF)%char then oss_put "n"%char (oss_put BACKSLASH lg)
  else if (ch =? CR)%char then oss_put "r"%char (oss_put BACKSLASH lg)
  else if (ch =? TAB)%char then oss_put "t"%char (oss_put BACKSLASH lg)
  else oss_put ch lg.

(** ** The overloads of Put

    Each takes the logger the line refers to and gives the logger back;
    [None] is undefined behaviour. *)

Definition Put_bool (value : bool) (lg : JsonLogger) : option JsonLogger :=
  Some (oss_write (if value then lit "true" else lit "false") lg).

(** [int], [unsigned int], [long] and [unsigned long]: the value is an
    integer of its type, written in decimal. *)
Definition Put_integer (value : Z) (lg : JsonLogger) : option JsonLogger :=
  Some (oss_write (dec value) lg).

Definition Put_double (value : double) (lg : JsonLogger) : option JsonLogger :=
  Some (oss_write (fmt_double value) lg).

(** ** The locale of the collector stream

    [std::ostringstream oss_] is constructed with the locale that is global
    at that time, and nothing imbues another one later. The insertion of a
    number goes through the facet [num_put] of that locale: the characters
    that printf gives (stage 1) are adjusted with the facet [numpunct] of
    the locale (stage 2), which groups the digits before the point and
    replaces the point. The insertion of characters and of strings does not
    depend on the locale. *)

Record numpunct := mkNumpunct {
  decimal_point : ascii;
  thousands_sep : ascii;
  grouping : list Z     (* the sizes of the groups, the rightmost first *)
}.


Definition CHAR_MAX : Z := 127.

(** A size that stands for a group of all the digits that are left. *)
Definition unlimited (size : Z) : bool := (size <=? 0) || (size =? CHAR_MAX).

(** The separators between the groups of [rdigits], the digits from the
    right to the left: [size] is the size of the group being filled,
    [filled] the number of digits it holds, [sizes] the sizes of the groups
    after it; the last size stands for every further group. *)
Fixpoint add_grouping (sep : ascii) (size : Z) (sizes : list Z) (filled : Z)
    (rdigits : text) : text :=
  match rdigits with
  | [] => []
  | d :: rest =>
      if unlimited size || (filled <? size)
      then d :: add_grouping sep size sizes (filled + 1) rest
      else
        match sizes with
        | [] => sep :: d :: add_grouping sep size [] 1 rest
        | next :: sizes' => sep :: d :: add_grouping sep next sizes' 1 rest
        end
  end.

Definition group_digits (loc : numpunct) (digits : text) : text :=
  match grouping loc with
  | [] => digits
  | size :: sizes =>
      rev (add_grouping (thousands_sep loc) size sizes 0 (rev digits))
  end.

(** The digits a text starts with, and what follows them. *)
Fixpoint leading_digits (s : text) : text * text :=
  match s with
  | [] => ([], [])
  | ch :: rest =>
      if (48 <=? nat_of_ascii ch)%nat && (nat_of_ascii ch <=? 57)%nat
      then let '(digits, after) := leading_digits rest in (ch :: digits, after)
      else ([], s)
  end.

(** Stage 2 of [num_put] on the characters of stage 1: the sign stays, the
    digits before the point are grouped, the point becomes the decimal
    point of the locale. *)
Definition localize (loc : numpunct) (s : text) : text :=
  let '(sign, unsigned) :=
    match s with
    | ch :: rest => if (ch =? "-")%char then ([ch], rest) else ([], s)
    | [] => ([], s)
    end in
  let '(digits, after) := leading_digits unsigned in
  sign ++ group_digits loc digits
  ++ match after with
     | ch :: rest => if (ch =? ".")%char then decimal_point loc :: rest else after
     | [] => []
     end.



(** ** The overloads of Put for text and for vectors *)

(** The loop [for (const char* s = str; *s; ++s) line.PutEscapedChar( *s )]
    over [mem], the characters stored from [str] to the end of its array.
    Running off the array is undefined. *)
Fixpoint cstr_loop (mem : text) (lg : JsonLogger) : option JsonLogger :=
  match mem with
  | [] => None
  | ch :: rest =>
      if (ch =? NUL)%char then Some lg
      else cstr_loop rest (PutEscapedChar ch lg)
  end.

Definition Put_cstr (mem : text) (lg : JsonLogger) : option JsonLogger :=
  match cstr_loop mem (oss_put DQUOTE lg) with
  | Some lg' => Some (oss_put DQUOTE lg')
  | None => None
  end.

(** The loop from [str.begin()] to [str.end()]. *)
Fixpoint string_loop (str : text) (lg : JsonLogger) : JsonLogger :=
  match str with
  | [] => lg
  | ch :: rest => string_loop rest (PutEscapedChar ch lg)
  end.

Definition Put_string (str : text) (lg : JsonLogger) : option JsonLogger :=
  Some (oss_put DQUOTE (string_loop str (oss_put DQUOTE lg))).

(** The template [Put(JsonLine&, std::vector<Type> const&)], over the way
    its elements are put ([line.PutDecay( *it )]); [at_begin] is
    [it == vec.begin()]. *)
Definition vector_loop {Type_ : Type}
    (put_elem : Type_ -> JsonLogger -> option JsonLogger) :=
  fix loop (vec : list Type_) (at_begin : bool) (lg : JsonLogger)
      : option JsonLogger :=
    match vec with
    | [] => Some lg
    | x :: rest =>
        let lg1 := if at_begin then lg else oss_put ","%char lg in
        match put_elem x lg1 with
        | Some lg2 => loop rest false lg2
        | None => None
        end
    end.

Definition Put_vector {Type_ : Type}
    (put_elem : Type_ -> JsonLogger -> option JsonLogger)
    (vec : list Type_) (lg : JsonLogger) : option JsonLogger :=
  match vector_loop put_elem vec true (oss_put "["%char lg) with
  | Some lg' => Some (oss_put "]"%char lg')
  | None => None
  end.

(** ** Values

    The closed set of types [operator<<] accepts, one constructor for each
    overload of [Put] and one for the character arrays that
    [ArrayToPointerDecay] turns into pointers. A [const char*] is given by
    the characters stored from the address it holds to the end of the array
    it points into. *)
#[warnings="-register-all"]
Inductive Value : Type :=
| VBool (value : bool)
| VInt (value : Z)
| VUInt (value : Z)
| VLong (value : Z)
| VULong (value : Z)
| VDouble (value : double)
| VCStr (mem : text)          (* const char* *)
| VCharArray (arr : text)     (* char[N] *)
| VString (str : text)        (* std::string *)
| VVector (vec : list Value). (* std::vector<Type> *)

(** [JsonLine::PutDecay]: an array decays to the pointer to its first
    character, every other type is put as it is. *)
Fixpoint PutDecay (t : Value) (lg : JsonLogger) {struct t} : option JsonLogger :=
  match t with
  | VBool value => Put_bool value lg
  | VInt value | VUInt value | VLong value | VULong value => Put_integer value lg
  | VDouble value => Put_double value lg
  | VCStr mem => Put_cstr mem lg
  | VCharArray arr => Put_cstr arr lg
  | VString str => Put_string str lg
  | VVector vec => Put_vector PutDecay vec lg
  end.

(** [JsonLine::operator<<], on the logger the line refers to. *)
Definition shl_logger (t : Value) (lg : JsonLogger) : option JsonLogger :=
  PutDecay t (PutSeparator lg).

(** ** std::cout *)

Record ostream := mkOstream {
  sent : text;       (* the characters the device has taken *)
  badbit : bool;     (* the error state of the stream *)
  room : nat         (* how many more characters the device takes *)
}.

(** [os << ch]: nothing happens on a stream in error; a character the
    device refuses raises [badbit]. *)
Definition ostream_put (ch : ascii) (os : ostream) : ostream :=
  if badbit os then os
  else match room os with
       | O => mkOstream (sent os) true O
       | S r => mkOstream (sent os ++ [ch]) false r
       end.

(** [os << str], character by character. *)
Fixpoint ostream_write (s : text) (os : ostream) : ostream :=
  match s with
  | [] => os
  | ch :: rest => ostream_write rest (ostream_put ch os)
  end.

(** [os << std::endl]: a newline, and a flush of a device that holds
    nothing back. *)
Definition ostream_endl (os : ostream) : ostream := ostream_put LF os.

(** ** The program state and the outcomes of a call *)

Definition addr := nat.

Record World := mkWorld {
  loggers : addr -> JsonLogger;   (* the JsonLogger objects, by address *)
  cout : ostream
}.

Definition set_logger (a : addr) (lg : JsonLogger) (w : World) : World :=
  mkWorld (fun a' => if Nat.eqb a' a then lg else loggers w a') (cout w).

Definition set_cout (os : ostream) (w : World) : World :=
  mkWorld (loggers w) os.

Inductive outcome (A : Type) : Type :=
| Returns (a : A) (w : World)   (* the call returns normally *)
| Aborts (w : World)            (* a failed assertion: abort() *)
| Undefined.                    (* undefined behaviour *)

Arguments Returns {A} a w.
Arguments Aborts {A} w.
Arguments Undefined {A}.

Definition M (A : Type) : Type := World -> outcome A.

Definition ret {A : Type} (a : A) : M A := fun w => Returns a w.

Definition bind {A B : Type} (c : M A) (k : A -> M B) : M B :=
  fun w => match c w with
           | Returns a w' => k a w'
           | Aborts w' => Aborts w'
           | Undefined => Undefined
           end.

Notation "x <- c ;; k" := (bind c (fun x => k))
  (at level 61, c at next level, right associativity).
Notation "c ;; k" := (bind c (fun _ => k))
  (at level 61, right associativity).

(** [assert(cond)]. *)
Definition assert_ (cond : bool) : M unit :=
  fun w => if cond then Returns tt w else Aborts w.

(** A member of [JsonLine] or an overload of [Put] run on the logger at
    address [a]. *)
Definition on_logger (a : addr) (f : JsonLogger -> option JsonLogger) : M unit :=
  fun w => match f (loggers w a) with
           | Some lg => Returns tt (set_logger a lg w)
           | None => Undefined
           end.

(** ** JsonLine and JsonLogger *)

Record JsonLine := mkJsonLine {
  logger_ : addr      (* JsonLogger& logger_ *)
}.

(** [explicit JsonLine(JsonLogger& logger)]. *)
Definition JsonLine_ctor (logger : addr) : JsonLine := mkJsonLine logger.

(** [JsonLine(JsonLine&&) = default]: the new object takes the members of
    the old one, which stays as it is until its own destructor runs. *)
Definition JsonLine_move (o : JsonLine) : JsonLine := mkJsonLine (logger_ o).

(** [JsonLine::operator<<]. *)
Definition JsonLine_shl (line : JsonLine) (t : Value) : M JsonLine :=
  on_logger (logger_ line) (shl_logger t) ;;
  ret line.

(** [JsonLogger::Output]. *)
Definition Output (this : addr) : M unit :=
  fun w =>
    Returns tt
      (set_cout
         (ostream_endl
            (ostream_put "}"%char
               (ostream_write (oss_ (loggers w this))
                  (ostream_put "{"%char (cout w)))))
         w).

(** [JsonLine::~JsonLine]. *)
Definition JsonLine_dtor (line : JsonLine) : M unit :=
  fun w =>
    (assert_ (elements_ (loggers w (logger_ line)) mod 2 =? 0) ;;
     Output (logger_ line)) w.

(** [JsonLogger::line]; [now] is the count of microseconds the steady clock
    gives. The local [out] is the object the caller receives (the return
    value is constructed in place). *)
Definition JsonLogger_line (this : addr) (now : Z) : M JsonLine :=
  on_logger this (fun lg => Some (mkJsonLogger [] (elements_ lg))) ;;
  on_logger this (fun lg => Some (mkJsonLogger (oss_ lg) 0)) ;;
  let out := JsonLine_ctor this in
  out1 <- JsonLine_shl out (VCharArray (c_literal "ts")) ;;
  out2 <- JsonLine_shl out1 (VLong now) ;;
  ret out.

(** [JsonLogger::operator<<]. *)
Definition JsonLogger_shl (this : addr) (now : Z) (t : Value) : M JsonLine :=
  out <- JsonLogger_line this now ;;
  _ <- JsonLine_shl out t ;;
  ret out.

(** A record: [line()], then the pairs appended in order, then the
    destructor of the line at the end of its scope. *)
Fixpoint append_pairs (out : JsonLine) (pairs : list (Value * Value)) : M unit :=
  match pairs with
  | [] => ret tt
  | (key, value) :: rest =>
      _ <- JsonLine_shl out key ;;
      _ <- JsonLine_shl out value ;;
      append_pairs out rest
  end.

Definition write_record (this : addr) (now : Z) (pairs : list (Value * Value))
    : M unit :=
  out <- JsonLogger_line this now ;;
  append_pairs out pairs ;;
  JsonLine_dtor out.

(** ** What the properties are stated with *)

(** The text a value is encoded to: what [PutDecay] collects in an empty
    stream. *)
Definition encode (t : Value) : option text :=
  option_map oss_ (PutDecay t (mkJsonLogger [] 0)).

(** The escaping table, row by row. *)
Definition escaping_table : list (ascii * text) :=
  [ (BACKSLASH, [BACKSLASH; BACKSLASH]);
    (DQUOTE, [BACKSLASH; DQUOTE]);
    (SLASH, [BACKSLASH; SLASH]);
    (BS, [BACKSLASH; "b"%char]);
    (FF, [BACKSLASH; "f"%char]);
    (LF, [BACKSLASH; "n"%char]);
    (CR, [BACKSLASH; "r"%char]);
    (TAB, [BACKSLASH; "t"%char]) ].

Fixpoint table_lookup (ch : ascii) (table : list (ascii * text)) : option text :=
  match table with
  | [] => None
  | (key, out) :: rest => if (ch =? key)%char then Some out else table_lookup ch rest
  end.

(** A character through the table: its row, or the character itself when
    it has none. *)
Definition escaped (ch : ascii) : text :=
  match table_lookup ch escaping_table with
  | Some out => out
  | None => [ch]
  end.

Definition quoted (s : text) : text := DQUOTE :: flat_map escaped s ++ [DQUOTE].

(** Texts in a row, [sep] between neighbours. *)
Fixpoint join (sep : text) (parts : list text) : text :=
  match parts with
  | [] => []
  | [x] => x
  | x :: rest => x ++ sep ++ join sep rest
  end.

(** The characters of a C string: those before the first NUL of [mem];
    none when [mem] holds no NUL. *)
Fixpoint c_str (mem : text) : option text :=
  match mem with
  | [] => None
  | ch :: rest =>
      if (ch =? NUL)%char then Some []
      else option_map (cons ch) (c_str rest)
  end.

(** The texts of the elements of a vector, when each element has one. *)
Fixpoint encode_all (vec : list Value) : option (list text) :=
  match vec with
  | [] => Some []
  | x :: rest =>
      match encode x, encode_all rest with
      | Some s, Some parts => Some (s :: parts)
      | _, _ => None
      end
  end.

(** A value is put the same way after any collected text. *)
Definition appends (t : Value) : Prop :=
  forall lg, PutDecay t lg = option_map (fun s => oss_write s lg) (encode t).

(** ** Induction on values, through the vectors *)

Section Value_nested_ind.
Variable P : Value -> Prop.
Hypothesis Hbool : forall value, P (VBool value).
Hypothesis Hint : forall value, P (VInt value).
Hypothesis Huint : forall value, P (VUInt value).
Hypothesis Hlong : forall value, P (VLong value).
Hypothesis Hulong : forall value, P (VULong value).
Hypothesis Hdouble : forall value, P (VDouble value).
Hypothesis Hcstr : forall mem, P (VCStr mem).
Hypothesis Harr : forall arr, P (VCharArray arr).
Hypothesis Hstring : forall str, P (VString str).
Hypothesis Hvector : forall vec, Forall P vec -> P (VVector vec).

Fixpoint Value_nested_ind (t : Value) : P t :=
  match t with
  | VBool value => Hbool value
  | VInt value => Hint value
  | VUInt value => Huint value
  | VLong value => Hlong value
  | VULong value => Hulong value
  | VDouble value => Hdouble value
  | VCStr mem => Hcstr mem
  | VCharArray arr => Harr arr
  | VString str => Hstring str
  | VVector vec =>
      Hvector vec
        ((fix all (l : list Value) : Forall P l :=
            match l with
            | [] => Forall_nil P
            | x :: rest => Forall_cons x (Value_nested_ind x) (all rest)
            end) vec)
  end.
End Value_nested_ind.

(** The separator rule: nothing before the very first field, a comma
    before a field when the count of fields is even, a colon when it is
    odd. *)
Definition separator (fieldCount : Z) : text :=
  if fieldCount =? 0 then []
  else if Z.even fieldCount then [","%char] else [":"%char].

(** The appended pairs of a record, as text. *)
Definition pairs_text (kvs : list (text * text)) : text :=
  flat_map (fun kv => [","%char] ++ fst kv ++ [":"%char] ++ snd kv) kvs.

(** The body of a record: the pair of the timestamp, then the appended
    pairs. *)
Definition body_text (now : Z) (kvs : list (text * text)) : text :=
  [DQUOTE] ++ lit "ts" ++ [DQUOTE] ++ [":"%char] ++ dec now ++ pairs_text kvs.

(** The line of a record. *)
Definition record_line (body : text) : text :=
  ["{"%char] ++ body ++ ["}"%char] ++ [LF].

(** The keys and values of [pairs] have the texts [kvs]. *)
Definition encoded_pairs (pairs : list (Value * Value)) (kvs : list (text * text))
    : Prop :=
  Forall2 (fun p kv => encode (fst p) = Some (fst kv) /\ encode (snd p) = Some (snd kv))
          pairs kvs.

(** An operation that leaves [std::cout] as it found it. *)
Definition no_output {A : Type} (c : M A) : Prop :=
  forall w, match c w with
            | Returns _ w' => cout w' = cout w
            | Aborts w' => cout w' = cout w
            | Undefined => True
            end.

(** What has reached the sink when a call is over. *)
Definition output_of {A : Type} (o : outcome A) : option text :=
  match o with
  | Returns _ w => Some (sent (cout w))
  | Aborts w => Some (sent (cout w))
  | Undefined => None
  end.

(** The block
    [{ JsonLine a = logger.line(); a << key << value; JsonLine b(std::move(a)); }]
    of a caller: at its end the destructors of [b] and of [a] run, the last
    constructed first. *)
Definition moved_record (this : addr) (now : Z) (key value : Value) : M unit :=
  a <- JsonLogger_line this now ;;
  _ <- JsonLine_shl a key ;;
  _ <- JsonLine_shl a value ;;
  let b := JsonLine_move a in
  JsonLine_dtor b ;;
  JsonLine_dtor a.

(** [JsonLogger::line] when the compiler does not construct the return
    value in place: [return out] moves [out] into the return value and the
    local [out] is destroyed on the way out of the function. *)
Definition JsonLogger_line_not_elided (this : addr) (now : Z) : M JsonLine :=
  on_logger this (fun lg => Some (mkJsonLogger [] (elements_ lg))) ;;
  on_logger this (fun lg => Some (mkJsonLogger (oss_ lg) 0)) ;;
  let out := JsonLine_ctor this in
  out1 <- JsonLine_shl out (VCharArray (c_literal "ts")) ;;
  out2 <- JsonLine_shl out1 (VLong now) ;;
  let result := JsonLine_move out in
  JsonLine_dtor out ;;
  ret result.

(** A flush reports the failure of the sink: it does not return normally
    from a write during which the sink went into its error state. *)
Definition sink_failed_during (w w' : World) : Prop :=
  badbit (cout w) = false /\ badbit (cout w') = true.

Definition flush_reports_failure : Prop :=
  forall this w w', Output this w = Returns tt w' -> ~ sink_failed_during w w'.

(** ** The decoder of the round trip

    The string of RFC 8259, section 7, read from bytes: a double quote, then
    characters up to the closing double quote, which ends the input. A
    backslash starts one of the escapes of the grammar; [\uXXXX] gives the
    UTF-8 bytes of its code point, a pair of surrogates those of the code
    point they name. A byte below 0x20 that is not escaped is refused, as
    the grammar leaves it out of the unescaped characters. JSON text is
    UTF-8 (RFC 8259, section 8.1): bytes from 0x80 on are taken only in the
    well-formed sequences of RFC 3629, and given back as they are. *)

Definition hex_value (ch : ascii) : option Z :=
  let n := Z.of_nat (nat_of_ascii ch) in
  if (48 <=? n) && (n <=? 57) then Some (n - 48)
  else if (65 <=? n) && (n <=? 70) then Some (n - 55)
  else if (97 <=? n) && (n <=? 102) then Some (n - 87)
  else None.

Definition hex4 (a b c d : ascii) : option Z :=
  match hex_value a, hex_value b, hex_value c, hex_value d with
  | Some x3, Some x2, Some x1, Some x0 => Some (((x3 * 16 + x2) * 16 + x1) * 16 + x0)
  | _, _, _, _ => None
  end.

Definition byte_of (n : Z) : ascii := ascii_of_nat (Z.to_nat n).

Definition utf8 (cp : Z) : text :=
  if cp <? 128 then [byte_of cp]
  else if cp <? 2048 then
    [byte_of (192 + cp / 64); byte_of (128 + cp mod 64)]
  else if cp <? 65536 then
    [byte_of (224 + cp / 4096); byte_of (128 + (cp / 64) mod 64);
     byte_of (128 + cp mod 64)]
  else
    [byte_of (240 + cp / 262144); byte_of (128 + (cp / 4096) mod 64);
     byte_of (128 + (cp / 64) mod 64); byte_of (128 + cp mod 64)].

Definition is_high_surrogate (cp : Z) : bool := (55296 <=? cp) && (cp <? 56320).
Definition is_low_surrogate (cp : Z) : bool := (56320 <=? cp) && (cp <? 57344).

(** UTF-8 (RFC 3629, section 4). The first byte of a sequence decides its
    length; the bytes 0x80 to 0xC1 and 0xF5 to 0xFF start none. The first
    byte also decides the range of the second one, which keeps out the
    overlong forms, the surrogates and the code points above U+10FFFF;
    every later byte is from 0x80 to 0xBF. *)
Definition utf8_length (first : ascii) : nat :=
  let n := nat_of_ascii first in
  if (n <? 128)%nat then 1%nat
  else if (n <? 194)%nat then 0%nat
  else if (n <? 224)%nat then 2%nat
  else if (n <? 240)%nat then 3%nat
  else if (n <? 245)%nat then 4%nat
  else 0%nat.

Definition in_range (lo hi : nat) (b : ascii) : bool :=
  (lo <=? nat_of_ascii b)%nat && (nat_of_ascii b <=? hi)%nat.

Definition utf8_second (first second : ascii) : bool :=
  let n := nat_of_ascii first in
  if (n =? 224)%nat then in_range 160 191 second
  else if (n =? 237)%nat then in_range 128 159 second
  else if (n =? 240)%nat then in_range 144 191 second
  else if (n =? 244)%nat then in_range 128 143 second
  else in_range 128 191 second.

Definition utf8_tail (b : ascii) : bool := in_range 128 191 b.

(** The characters after the opening double quote. *)
Fixpoint json_chars (s : text) : option text :=
  match s with
  | [] => None
  | ch :: rest =>
      if (ch =? DQUOTE)%char then
        match rest with [] => Some [] | _ :: _ => None end
      else if (ch =? BACKSLASH)%char then
        match rest with
        | [] => None
        | e :: rest1 =>
            if (e =? DQUOTE)%char then option_map (cons DQUOTE) (json_chars rest1)
            else if (e =? BACKSLASH)%char then option_map (cons BACKSLASH) (json_chars rest1)
            else if (e =? SLASH)%char then option_map (cons SLASH) (json_chars rest1)
            else if (e =? "b")%char then option_map (cons BS) (json_chars rest1)
            else if (e =? "f")%char then option_map (cons FF) (json_chars rest1)
            else if (e =? "n")%char then option_map (cons LF) (json_chars rest1)
            else if (e =? "r")%char then option_map (cons CR) (json_chars rest1)
            else if (e =? "t")%char then option_map (cons TAB) (json_chars rest1)
            else if (e =? "u")%char then
              match rest1 with
              | h1 :: h2 :: h3 :: h4 :: rest2 =>
                  match hex4 h1 h2 h3 h4 with
                  | None => None
                  | Some cp =>
                      if is_low_surrogate cp then None
                      else if is_high_surrogate cp then
                        match rest2 with
                        | b :: u :: l1 :: l2 :: l3 :: l4 :: rest3 =>
                            if (b =? BACKSLASH)%char && (u =? "u")%char then
                              match hex4 l1 l2 l3 l4 with
                              | None => None
                              | Some lo =>
                                  if is_low_surrogate lo then
                                    option_map
                                      (app (utf8 (65536 + (cp - 55296) * 1024
                                                  + (lo - 56320))))
                                      (json_chars rest3)
                                  else None
                              end
                            else None
                        | _ => None
                        end
                      else option_map (app (utf8 cp)) (json_chars rest2)
                  end
              | _ => None
              end
            else None
        end
      else if (nat_of_ascii ch <? 32)%nat then None
      else
        match utf8_length ch with
        | 1%nat => option_map (cons ch) (json_chars rest)
        | 2%nat =>
            match rest with
            | c1 :: rest1 =>
                if utf8_second ch c1
                then option_map (fun t => ch :: c1 :: t) (json_chars rest1)
                else None
            | _ => None
            end
        | 3%nat =>
            match rest with
            | c1 :: c2 :: rest2 =>
                if utf8_second ch c1 && utf8_tail c2
                then option_map (fun t => ch :: c1 :: c2 :: t) (json_chars rest2)
                else None
            | _ => None
            end
        | 4%nat =>
            match rest with
            | c1 :: c2 :: c3 :: rest3 =>
                if utf8_second ch c1 && utf8_tail c2 && utf8_tail c3
                then option_map (fun t => ch :: c1 :: c2 :: c3 :: t)
                                (json_chars rest3)
                else None
            | _ => None
            end
        | _ => None
        end
  end.

Definition json_decode_string (s : text) : option text :=
  match s with
  | [] => None
  | q :: rest => if (q =? DQUOTE)%char then json_chars rest else None
  end.

(** Encoding a [std::string], then decoding. *)
Definition round_trip (str : text) : option text :=
  match encode (VString str) with
  | Some e => json_decode_string e
  | None => None
  end.

(** The characters of the round trip as stated: backslash, double quote,
    newline, tab, and the characters the table has no row for. *)
Definition listed_or_table_free (ch : ascii) : bool :=
  (ch =? BACKSLASH)%char || (ch =? DQUOTE)%char || (ch =? LF)%char
  || (ch =? TAB)%char
  || match table_lookup ch escaping_table with Some _ => false | None => true end.

Definition round_trip_as_stated : Prop :=
  forall str, forallb listed_or_table_free str = true -> round_trip str = Some str.

(** The characters of the round trip that holds: those with a row in the
    table, and those from 0x20 on. *)
Definition escaped_or_printable (ch : ascii) : bool :=
  match table_lookup ch escaping_table with
  | Some _ => true
  | None => (32 <=? nat_of_ascii ch)%nat
  end.

(** The strings of the round trip that holds: those that are well-formed
    UTF-8, which the strings of ASCII characters are. *)
Fixpoint well_formed_utf8 (s : text) : bool :=
  match s with
  | [] => true
  | b :: rest =>
      match utf8_length b with
      | 1%nat => well_formed_utf8 rest
      | 2%nat =>
          match rest with
          | c1 :: rest1 => utf8_second b c1 && well_formed_utf8 rest1
          | _ => false
          end
      | 3%nat =>
          match rest with
          | c1 :: c2 :: rest2 =>
              utf8_second b c1 && utf8_tail c2 && well_formed_utf8 rest2
          | _ => false
          end
      | 4%nat =>
          match rest with
          | c1 :: c2 :: c3 :: rest3 =>
              utf8_second b c1 && utf8_tail c2 && utf8_tail c3
              && well_formed_utf8 rest3
          | _ => false
          end
      | _ => false
      end
  end.

(** A text without a line terminator. *)
Definition one_line (s : text) : Prop := ~ In LF s.

(** ** Reading the text of a double back

    A reader of decimal numerals: an optional minus sign, digits, an
    optional point and fraction, an optional exponent; it gives the
    rational number the numeral denotes. A text re-parses to a double when
    that double is as near to this number as any double is. *)

(** The text before the first [sep], and the text after it if there is
    one. *)
Fixpoint split_at (sep : ascii) (s : text) : text * option text :=
  match s with
  | [] => ([], None)
  | ch :: rest =>
      if (ch =? sep)%char then ([], Some rest)
      else let '(before, after) := split_at sep rest in (ch :: before, after)
  end.

(** A decimal digit, and the number it stands for. *)
Definition is_digit (ch : ascii) : bool :=
  (48 <=? nat_of_ascii ch)%nat && (nat_of_ascii ch <=? 57)%nat.

Definition digit_value (ch : ascii) : option Z :=
  if is_digit ch then Some (Z.of_nat (nat_of_ascii ch) - 48) else None.

(** The number a row of digits stands for, after the digits that gave
    [acc]. *)
Fixpoint read_digits_from (acc : Z) (s : text) : option Z :=
  match s with
  | [] => Some acc
  | ch :: rest =>
      match digit_value ch with
      | Some d => read_digits_from (10 * acc + d) rest
      | None => None
      end
  end.

(** One digit at least. *)
Definition read_digits (s : text) : option Z :=
  match s with
  | [] => None
  | _ :: _ => read_digits_from 0 s
  end.

Definition read_fraction (s : text) : option Z := read_digits_from 0 s.

Definition read_exponent (s : text) : option Z :=
  match s with
  | [] => None
  | ch :: rest =>
      if (ch =? "-")%char then option_map Z.opp (read_digits rest)
      else if (ch =? "+")%char then read_digits rest
      else read_digits s
  end.

(** [n * 10^k]. *)
Definition scale (n k : Z) : Q :=
  if 0 <=? k then inject_Z (n * 10 ^ k) else n # Z.to_pos (10 ^ (- k)).

Definition read_unsigned (s : text) : option Q :=
  let '(mantissa, exponent) := split_at "e" s in
  let '(int_part, after_point) := split_at "." mantissa in
  let fraction := match after_point with Some f => f | None => [] end in
  match read_digits int_part, read_fraction fraction,
        match exponent with Some x => read_exponent x | None => Some 0 end
  with
  | Some i, Some f, Some x =>
      let w := Z.of_nat (List.length fraction) in
      Some (scale (i * 10 ^ w + f) (x - w))
  | _, _, _ => None
  end.

Definition read_decimal (s : text) : option Q :=
  match s with
  | [] => None
  | ch :: rest =>
      if (ch =? "-")%char then option_map Qopp (read_unsigned rest)
      else read_unsigned s
  end.

(** The number a finite double stands for. *)
Definition value_of (s : bool) (m : positive) (e : Z) : Q :=
  let '(num, den) := frac_of m e in
  if s then Qopp (num # Z.to_pos den) else num # Z.to_pos den.

(** The finite doubles of the format binary64. *)
Definition binary64 (m : positive) (e : Z) : bool := bounded 53 1024 m e.

Definition nearest_double (q : Q) (s : bool) (m : positive) (e : Z) : Prop :=
  forall s' m' e',
    binary64 m' e' = true ->
    Qle (Qabs (q - value_of s m e)) (Qabs (q - value_of s' m' e')).

Definition reparses_to (txt : text) (s : bool) (m : positive) (e : Z) : Prop :=
  exists q, read_decimal txt = Some q /\ nearest_double q s m e.





(** A locale of the German kind: decimal comma, groups of three digits
    apart by a point. *)
Definition comma_locale : numpunct := mkNumpunct ","%char "."%char [3].

(** The six digits and the decimal exponent that [fmt_double] writes for
    a finite double, the number they stand for, and half a unit of the
    last of the six digits. *)
Definition six_digits (m : positive) (e : Z) : Z * Z :=
  let '(num, den) := frac_of m e in round_sig default_precision num den.

Definition six_digit_rounding (s : bool) (m : positive) (e : Z) : Q :=
  let r := scale (fst (six_digits m e))
                 (snd (six_digits m e) - (default_precision - 1)) in
  if s then Qopp r else r.


(** ** More callers of the logger *)

(** A chain [out << v1 << v2 << ...] of any length. *)
Fixpoint append_values (out : JsonLine) (vals : list Value) : M unit :=
  match vals with
  | [] => ret tt
  | t :: rest =>
      _ <- JsonLine_shl out t ;;
      append_values out rest
  end.

(** [{ JsonLine out = logger.line(); out << v1 << ... ; }]. *)
Definition write_values (this : addr) (now : Z) (vals : list Value) : M unit :=
  out <- JsonLogger_line this now ;;
  append_values out vals ;;
  JsonLine_dtor out.

(** The statement [logger << t;]: the temporary line that [operator<<]
    returns is destroyed at the end of the statement. *)
Definition shl_statement (this : addr) (now : Z) (t : Value) : M unit :=
  out <- JsonLogger_shl this now t ;;
  JsonLine_dtor out.

(** Two lines of one logger alive at the same time:
    [{ JsonLine a = logger.line(); a << ...; JsonLine b = logger.line();
       b << ...; }], the destructor of [b] running before the one of [a]. *)
Definition overlapping_lines (this : addr) (now1 now2 : Z)
    (pairs1 pairs2 : list (Value * Value)) : M unit :=
  a <- JsonLogger_line this now1 ;;
  append_pairs a pairs1 ;;
  b <- JsonLogger_line this now2 ;;
  append_pairs b pairs2 ;;
  JsonLine_dtor b ;;
  JsonLine_dtor a.

(** Appends to two lines in any order: each step of [schedule] names the
    line it appends to, [true] for [a] and [false] for [b], and the value. *)
Fixpoint append_interleaved (a b : JsonLine) (schedule : list (bool * Value))
    : M unit :=
  match schedule with
  | [] => ret tt
  | (to_a, t) :: rest =>
      _ <- JsonLine_shl (if to_a then a else b) t ;;
      append_interleaved a b rest
  end.

(** A line of each of two loggers alive at the same time:
    [{ JsonLine a = logger1.line(); JsonLine b = logger2.line(); ... }]
    with the appends to [a] and to [b] in the order of [schedule], the
    destructor of [b] running before the one of [a]. *)
Definition lines_of_two_loggers (this1 this2 : addr) (now1 now2 : Z)
    (schedule : list (bool * Value)) : M unit :=
  a <- JsonLogger_line this1 now1 ;;
  b <- JsonLogger_line this2 now2 ;;
  append_interleaved a b schedule ;;
  JsonLine_dtor b ;;
  JsonLine_dtor a.

(** The values a schedule appends to the one line, in their order. *)
Definition appended_to (to_a : bool) (schedule : list (bool * Value))
    : list Value :=
  map snd (filter (fun step => Bool.eqb (fst step) to_a) schedule).

(** A call that leaves every logger but the one at [a] as it found it. *)
Definition keeps_other_loggers {A : Type} (a : addr) (c : M A) : Prop :=
  forall w, match c w with
            | Returns _ w' => forall a', a' <> a -> loggers w' a' = loggers w a'
            | Aborts w' => forall a', a' <> a -> loggers w' a' = loggers w a'
            | Undefined => True
            end.

(** Every C string of a value, at any depth of vectors, holds a NUL. *)
Fixpoint well_terminated (t : Value) : bool :=
  match t with
  | VCStr mem => existsb (fun ch => (ch =? NUL)%char) mem
  | VCharArray arr => existsb (fun ch => (ch =? NUL)%char) arr
  | VVector vec => forallb well_terminated vec
  | _ => true
  end.

(** The fields of a line as text, the first of them being field number
    [fieldCount] of the line. *)
Fixpoint fields_text (fieldCount : Z) (texts : list text) : text :=
  match texts with
  | [] => []
  | t :: rest => separator fieldCount ++ t ++ fields_text (fieldCount + 1) rest
  end.

(** The escapes of the table read back: after a backslash the letters of
    the five control characters give these, any other character gives
    itself. *)
Fixpoint unescape (s : text) : text :=
  match s with
  | [] => []
  | ch :: rest =>
      if (ch =? BACKSLASH)%char then
        match rest with
        | [] => [ch]
        | e :: rest' =>
            (if (e =? "b")%char then BS
             else if (e =? "f")%char then FF
             else if (e =? "n")%char then LF
             else if (e =? "r")%char then CR
             else if (e =? "t")%char then TAB
             else e) :: unescape rest'
        end
      else ch :: unescape rest
  end.

(** ** GenerateFileNode (thrill/api/generate_from_file.hpp)

    The node reads a file line by line into [elements_], takes its share
    of [size_] and pushes that many elements drawn at random, then logs
    that it is done. The file is the text it holds, or nothing when it
    cannot be opened; [rand i] is what the [i]-th call of
    [distribution(generator)] returns; the items given to [PushItem] are
    collected in a list. [num_workers()] and [my_rank()] are [size_t]. *)

Definition size_t_of (z : Z) : Z := z mod SIZE_MAX_plus_1.

(** [std::getline(file, line)] on what is left of the file: the characters
    before the next newline, which is taken out too; nothing when nothing
    is left to read. *)
Definition getline (file : text) : option (text * text) :=
  match file with
  | [] => None
  | _ :: _ =>
      let '(line, rest) := split_at LF file in
      Some (line, match rest with Some r => r | None => [] end)
  end.

(** [if ( *line.rbegin() == CR ) line.erase(line.length() - 1)]: the last
    character of an empty line does not exist, and reading it is
    undefined. *)
Definition strip_cr (line : text) : option text :=
  match rev line with
  | [] => None
  | ch :: before => if (ch =? CR)%char then Some (rev before) else Some line
  end.

(** The loop [while (std::getline(file, line))]. Each turn takes at least
    one character of the file, so that [fuel] beyond the length of the
    file is never used up. *)
Fixpoint read_loop {V : Type} (fuel : nat) (generator_function_ : text -> V)
    (file : text) (elements_ : list V) : option (list V) :=
  match fuel with
  | O => Some elements_
  | S fuel' =>
      match getline file with
      | None => Some elements_
      | Some (line, rest) =>
          match strip_cr line with
          | None => None
          | Some line' =>
              read_loop fuel' generator_function_ rest
                        (elements_ ++ [generator_function_ line'])
          end
      end
  end.

(** The share of this worker; dividing by no workers is undefined. *)
Definition local_elements_of (size_ num_workers my_rank : Z) : option Z :=
  if num_workers =? 0 then None
  else
    let elements_per_worker := size_ / num_workers in
    if size_t_of (num_workers - 1) =? my_rank
    then Some (size_t_of
                 (size_ - size_t_of (size_t_of (num_workers - 1)
                                     * elements_per_worker)))
    else Some elements_per_worker.

(** The upper bound given to the distribution: [elements_.size() - 1]. *)
Definition distribution_max {V : Type} (elements_ : list V) : Z :=
  size_t_of (Z.of_nat (List.length elements_) - 1).

(** The loop of [PushItem(elements_[rand_element])] over the draws; an
    index outside [elements_] is undefined. *)
Fixpoint push_loop {V : Type} (elements_ : list V) (draws : list Z)
    : option (list V) :=
  match draws with
  | [] => Some []
  | rand_element :: rest =>
      match nth_error elements_ (Z.to_nat rand_element) with
      | None => None
      | Some item => option_map (cons item) (push_loop elements_ rest)
      end
  end.

(** [Super::logger_ << ... ;], the line being destroyed at the end of the
    statement. *)
Definition log_done (logger : addr) (now : Z) : M unit :=
  out <- JsonLogger_shl logger now (VCharArray (c_literal "class")) ;;
  _ <- JsonLine_shl out (VCharArray (c_literal "GenerateFileNode")) ;;
  _ <- JsonLine_shl out (VCharArray (c_literal "event")) ;;
  _ <- JsonLine_shl out (VCharArray (c_literal "done")) ;;
  JsonLine_dtor out.

(** A step whose behaviour may be undefined. *)
Definition defined {A : Type} (o : option A) : M A :=
  fun w => match o with Some a => Returns a w | None => Undefined end.

(** [GenerateFileNode::PushData]: it gives [elements_] as it leaves them
    and the items it pushed. *)
Definition PushData {V : Type} (generator_function_ : text -> V)
    (file : option text) (size_ num_workers my_rank : Z) (rand : nat -> Z)
    (logger : addr) (now : Z) (elements_ : list V) : M (list V * list V) :=
  match file with
  | None => fun w => Aborts w          (* assert(file.good()) *)
  | Some content =>
      elements' <- defined (read_loop (S (List.length content))
                              generator_function_ content elements_) ;;
      local_elements <- defined (local_elements_of size_ num_workers my_rank) ;;
      pushed <- defined (push_loop elements'
                           (map rand (seq 0 (Z.to_nat local_elements)))) ;;
      log_done logger now ;;
      ret (elements', pushed)
  end.

(** [GenerateFileNode::Dispose]. *)
Definition Dispose {V : Type} (elements_ : list V) : list V := [].

(** The lines of a file: the texts between its newlines, without an empty
    text after a last newline. *)
Fixpoint file_lines (file : text) : list text :=
  match file with
  | [] => []
  | ch :: rest =>
      if (ch =? LF)%char then [] :: file_lines rest
      else match file_lines rest with
           | [] => [[ch]]
           | line :: lines => (ch :: line) :: lines
           end
  end.

(** [strip_cr] on every line. *)
Fixpoint strip_all (lines : list text) : option (list text) :=
  match lines with
  | [] => Some []
  | line :: rest =>
      match strip_cr line, strip_all rest with
      | Some l, Some ls => Some (l :: ls)
      | _, _ => None
      end
  end.

(** The shares of all the workers together. *)
Definition sum_of_shares (size_ num_workers : Z) : Z :=
  fold_right Z.add 0
    (map (fun r => match local_elements_of size_ num_workers (Z.of_nat r) with
                   | Some n => n
                   | None => 0
                   end)
         (seq 0 (Z.to_nat num_workers))).

(** The file ends with a newline, or is empty. *)
Fixpoint ends_with_newline (file : text) : bool :=
  match file with
  | [] => true
  | ch :: rest =>
      match rest with
      | [] => (ch =? LF)%char
      | _ :: _ => ends_with_newline rest
      end
  end.

(** A line without the carriage return at its end, when it has one. *)
Fixpoint without_final_CR (line : text) : text :=
  match line with
  | [] => []
  | ch :: rest =>
      match rest with
      | [] => if (ch =? CR)%char then [] else [ch]
      | _ :: _ => ch :: without_final_CR rest
      end
  end.

Definition is_empty (line : text) : bool :=
  match line with
  | [] => true
  | _ :: _ => false
  end.

(** The file as written by a program that ends every line with
    [terminator] and a newline. *)
Definition file_of_lines (terminator : text) (lines : list text) : text :=
  flat_map (fun l => l ++ terminator ++ [LF]) lines.

(** The file has an empty line: it starts with a newline, or two newlines
    follow each other. *)
Definition has_empty_line (file : text) : Prop :=
  (exists rest, file = LF :: rest)
  \/ (exists before after, file = before ++ LF :: LF :: after).

(** The pairs [PushData] logs, and the line they make. *)
Definition done_pairs : list (Value * Value) :=
  [(VCharArray (c_literal "class"), VCharArray (c_literal "GenerateFileNode"));
   (VCharArray (c_literal "event"), VCharArray (c_literal "done"))].

Definition done_line (now : Z) : text :=
  ["{"%char] ++ quoted (lit "ts") ++ [":"%char] ++ dec now
  ++ [","%char] ++ quoted (lit "class") ++ [":"%char]
  ++ quoted (lit "GenerateFileNode")
  ++ [","%char] ++ quoted (lit "event") ++ [":"%char] ++ quoted (lit "done")
  ++ ["}"%char; LF].

(** * Properties *)

(** Case analysis on a character along the rows of the escaping table:
    [tac] closes the case of each row, the case of a character without a
    row is left. *)
Ltac by_table_row ch tac :=
  repeat match goal with
         | |- context [Ascii.eqb ch ?c] =>
             destruct (Ascii.eqb_spec ch c) as [->|?]; [tac|]
         end.

(** ** The collector stream only grows *)

Lemma oss_put_write ch lg : oss_put ch lg = oss_write [ch] lg.
Proof. reflexivity. Qed.

Lemma oss_write_write s t lg : oss_write t (oss_write s lg) = oss_write (s ++ t) lg.
Proof. unfold oss_write; simpl. now rewrite app_assoc. Qed.

Lemma oss_write_nil lg : oss_write [] lg = lg.
Proof. destruct lg; unfold oss_write; simpl. now rewrite app_nil_r. Qed.

Lemma PutEscapedChar_escaped ch lg :
  PutEscapedChar ch lg = oss_write (escaped ch) lg.
Proof.
  unfold PutEscapedChar, escaped, escaping_table, table_lookup.
  repeat (destruct (Ascii.eqb ch _);
          [now rewrite !oss_put_write, oss_write_write|]).
  apply oss_put_write.
Qed.

Lemma string_loop_escaped str : forall lg,
  string_loop str lg = oss_write (flat_map escaped str) lg.
Proof.
  induction str as [|ch rest IH]; intros lg; simpl.
  - now rewrite oss_write_nil.
  - now rewrite IH, PutEscapedChar_escaped, oss_write_write.
Qed.

Lemma cstr_loop_escaped s rest : forall lg,
  ~ In NUL s ->
  cstr_loop (s ++ NUL :: rest) lg = Some (oss_write (flat_map escaped s) lg).
Proof.
  induction s as [|ch s IH]; intros lg Hs; simpl.
  - now rewrite oss_write_nil.
  - destruct (Ascii.eqb_spec ch NUL) as [->|_].
    + exfalso; apply Hs; now left.
    + rewrite IH by (intros Hin; apply Hs; now right).
      now rewrite PutEscapedChar_escaped, oss_write_write.
Qed.

(** A character array without a NUL read as a C string: the loop runs
    off its end. *)
Remark cstr_loop_unterminated mem : forall lg,
  ~ In NUL mem -> cstr_loop mem lg = None.
Proof.
  induction mem as [|ch mem IH]; intros lg Hs; simpl; [reflexivity|].
  destruct (Ascii.eqb_spec ch NUL) as [->|_].
  - exfalso; apply Hs; now left.
  - apply IH. intros Hin; apply Hs; now right.
Qed.

Lemma Put_string_quoted str lg :
  Put_string str lg = Some (oss_write (quoted str) lg).
Proof.
  unfold Put_string, quoted.
  rewrite string_loop_escaped, !oss_put_write, !oss_write_write.
  reflexivity.
Qed.

Lemma Put_cstr_quoted s rest lg :
  ~ In NUL s ->
  Put_cstr (s ++ NUL :: rest) lg = Some (oss_write (quoted s) lg).
Proof.
  intros Hs. unfold Put_cstr, quoted.
  rewrite cstr_loop_escaped by assumption.
  now rewrite !oss_put_write, !oss_write_write.
Qed.

Lemma cstr_loop_c_str mem : forall lg,
  cstr_loop mem lg =
  option_map (fun s => oss_write (flat_map escaped s) lg) (c_str mem).
Proof.
  induction mem as [|ch mem IH]; intros lg; simpl; [reflexivity|].
  destruct (Ascii.eqb ch NUL); simpl.
  - now rewrite oss_write_nil.
  - rewrite IH, PutEscapedChar_escaped.
    destruct (c_str mem); simpl; [|reflexivity].
    now rewrite oss_write_write.
Qed.

Lemma Put_cstr_c_str mem lg :
  Put_cstr mem lg = option_map (fun s => oss_write (quoted s) lg) (c_str mem).
Proof.
  unfold Put_cstr, quoted. rewrite cstr_loop_c_str.
  destruct (c_str mem); simpl; [|reflexivity].
  now rewrite !oss_put_write, !oss_write_write.
Qed.

Lemma join_cons sep x rest :
  join sep (x :: rest) = x ++ flat_map (fun p => sep ++ p) rest.
Proof.
  revert x; induction rest as [|y rest IH]; intros x; simpl.
  - now rewrite app_nil_r.
  - change (x ++ sep ++ join sep (y :: rest) = x ++ (sep ++ y) ++ flat_map (fun p => sep ++ p) rest).
    now rewrite IH, <- app_assoc.
Qed.

Lemma vector_loop_rest vec :
  Forall appends vec ->
  forall lg,
    vector_loop PutDecay vec false lg =
    option_map (fun parts => oss_write (flat_map (fun p => [","%char] ++ p) parts) lg)
               (encode_all vec).
Proof.
  induction 1 as [|x rest Hx _ IH]; intros lg; simpl.
  - now rewrite oss_write_nil.
  - rewrite Hx. destruct (encode x) as [s|]; simpl; [|reflexivity].
    rewrite IH. destruct (encode_all rest) as [parts|]; simpl; [|reflexivity].
    now rewrite oss_put_write, !oss_write_write.
Qed.

Lemma vector_loop_begin vec :
  Forall appends vec ->
  forall lg,
    vector_loop PutDecay vec true lg =
    option_map (fun parts => oss_write (join [","%char] parts) lg) (encode_all vec).
Proof.
  intros Hvec lg. destruct Hvec as [|x rest Hx Hrest]; simpl.
  - now rewrite oss_write_nil.
  - rewrite Hx. destruct (encode x) as [s|]; simpl; [|reflexivity].
    change (vector_loop PutDecay rest false (oss_write s lg) =
            option_map (fun parts => oss_write (join [","%char] parts) lg)
              match encode_all rest with
              | Some parts => Some (s :: parts)
              | None => None
              end).
    rewrite (vector_loop_rest rest Hrest).
    destruct (encode_all rest) as [parts|]; cbn [option_map]; [|reflexivity].
    now rewrite oss_write_write, join_cons.
Qed.

Lemma Put_vector_appends vec :
  Forall appends vec ->
  forall lg,
    Put_vector PutDecay vec lg =
    option_map (fun parts => oss_write ("["%char :: join [","%char] parts ++ ["]"%char]) lg)
               (encode_all vec).
Proof.
  intros Hvec lg. unfold Put_vector.
  rewrite (vector_loop_begin vec Hvec).
  destruct (encode_all vec) as [parts|]; simpl; [|reflexivity].
  now rewrite !oss_put_write, !oss_write_write.
Qed.

Lemma PutDecay_appends t : appends t.
Proof.
  induction t as [b|z|z|z|z|d|mem|arr|str|vec IH] using Value_nested_ind;
    intros lg; unfold encode;
    try reflexivity.
  - cbn [PutDecay]. rewrite !Put_cstr_c_str. now destruct (c_str mem).
  - cbn [PutDecay]. rewrite !Put_cstr_c_str. now destruct (c_str arr).
  - cbn [PutDecay]. now rewrite !Put_string_quoted.
  - cbn [PutDecay]. rewrite !(Put_vector_appends vec IH).
    now destruct (encode_all vec).
Qed.

Lemma encode_all_Forall2 vec parts :
  encode_all vec = Some parts <-> Forall2 (fun x s => encode x = Some s) vec parts.
Proof.
  revert parts; induction vec as [|x rest IH]; intros parts; simpl.
  - split.
    + intros [= <-]. constructor.
    + intros H; inversion H; reflexivity.
  - split.
    + destruct (encode x) as [s|] eqn:Ex; [|discriminate].
      destruct (encode_all rest) as [ps|] eqn:Er; [|discriminate].
      intros [= <-]. constructor; [assumption|]. now apply IH.
    + intros H; inversion H as [|? s ? ps Hx Hr]; subst.
      rewrite Hx. apply IH in Hr. now rewrite Hr.
Qed.

(** ** Text values *)

(** C6. A text value, a [std::string] or a C string, is put as a double
    quote, then each of its characters through the escaping table
    (backslash, double quote, slash, backspace, form feed, newline,
    carriage return and tab as their two-character escapes, every other
    character as it is), then a double quote. The characters of a C string
    are those before its terminating NUL. *)
Theorem text_value_is_quoted_and_escaped :
  forall (str s rest : text) (lg : JsonLogger),
    ~ In NUL s ->
    PutDecay (VString str) lg
      = Some (oss_write ([DQUOTE] ++ flat_map escaped str ++ [DQUOTE]) lg)
    /\ PutDecay (VCStr (s ++ NUL :: rest)) lg
      = Some (oss_write ([DQUOTE] ++ flat_map escaped s ++ [DQUOTE]) lg)
    /\ escaped BACKSLASH = [BACKSLASH; BACKSLASH]
    /\ escaped DQUOTE = [BACKSLASH; DQUOTE]
    /\ escaped SLASH = [BACKSLASH; SLASH]
    /\ escaped BS = [BACKSLASH; "b"%char]
    /\ escaped FF = [BACKSLASH; "f"%char]
    /\ escaped LF = [BACKSLASH; "n"%char]
    /\ escaped CR = [BACKSLASH; "r"%char]
    /\ escaped TAB = [BACKSLASH; "t"%char]
    /\ (forall ch, ~ In ch [BACKSLASH; DQUOTE; SLASH; BS; FF; LF; CR; TAB] ->
                   escaped ch = [ch]).
Proof.
  intros str s rest lg Hs.
  split; [apply Put_string_quoted|].
  split; [now apply Put_cstr_quoted|].
  repeat (split; [reflexivity|]).
  intros ch Hch. unfold escaped, escaping_table, table_lookup.
  by_table_row ch ltac:(exfalso; apply Hch; simpl; tauto).
  reflexivity.
Qed.

Lemma text_value_is_quoted_and_escaped_witness :
  ~ In NUL (lit "a/b")
  /\ PutDecay (VString (lit "a/b")) (mkJsonLogger (lit "k:") 1)
     = Some (mkJsonLogger (lit "k:" ++ [DQUOTE] ++ lit "a\/b" ++ [DQUOTE]) 1)
  /\ PutDecay (VCStr (c_literal "a/b")) (mkJsonLogger (lit "k:") 1)
     = Some (mkJsonLogger (lit "k:" ++ [DQUOTE] ++ lit "a\/b" ++ [DQUOTE]) 1).
Proof.
  assert (H : ~ In NUL (lit "a/b")).
  { simpl. intros [H|[H|[H|[]]]]; discriminate H. }
  split; [exact H|].
  destruct (text_value_is_quoted_and_escaped
              (lit "a/b") (lit "a/b") [] (mkJsonLogger (lit "k:") 1) H)
    as (Hstr & Hcstr & _).
  split; [exact Hstr | exact Hcstr].
Defined.

(** C10. A C string, given as a pointer or as a character array, is put up
    to its first NUL and no further, whatever follows in the array; a
    [std::string] is put over its whole length, a NUL inside it going
    through as it is. *)
Theorem c_string_stops_at_first_NUL :
  forall (s rest : text) (lg : JsonLogger),
    ~ In NUL s ->
    PutDecay (VCStr (s ++ NUL :: rest)) lg = Some (oss_write (quoted s) lg)
    /\ PutDecay (VCharArray (s ++ NUL :: rest)) lg = Some (oss_write (quoted s) lg)
    /\ PutDecay (VString (s ++ NUL :: rest)) lg
       = Some (oss_write ([DQUOTE] ++ flat_map escaped s ++ [NUL]
                            ++ flat_map escaped rest ++ [DQUOTE]) lg).
Proof.
  intros s rest lg Hs.
  split; [now apply Put_cstr_quoted|].
  split; [now apply Put_cstr_quoted|].
  cbn [PutDecay]. rewrite Put_string_quoted. unfold quoted.
  rewrite flat_map_app. cbn [flat_map].
  now rewrite <- !app_assoc.
Qed.

Lemma c_string_stops_at_first_NUL_witness :
  ~ In NUL (lit "ab")
  /\ option_map oss_ (PutDecay (VCharArray (lit "ab" ++ NUL :: lit "cd")) (mkJsonLogger [] 0))
     = Some ([DQUOTE] ++ lit "ab" ++ [DQUOTE])
  /\ option_map oss_ (PutDecay (VString (lit "ab" ++ NUL :: lit "cd")) (mkJsonLogger [] 0))
     = Some ([DQUOTE] ++ lit "ab" ++ [NUL] ++ lit "cd" ++ [DQUOTE]).
Proof.
  assert (H : ~ In NUL (lit "ab")).
  { simpl. intros [H|[H|[]]]; discriminate H. }
  split; [exact H|].
  destruct (c_string_stops_at_first_NUL (lit "ab") (lit "cd") (mkJsonLogger [] 0) H)
    as (_ & Harr & Hstr).
  rewrite Harr, Hstr. split; reflexivity.
Defined.

(** ** Vectors *)

(** C8. A vector is put as an opening bracket, the texts of its elements
    in their order with one comma between neighbours, and a closing
    bracket; the count of fields stays as it is. The text of the vector is
    of this form too, so the same holds of a vector inside a vector. *)
Theorem vector_is_bracketed_and_comma_separated :
  forall (vec : list Value) (parts : list text) (lg : JsonLogger),
    Forall2 (fun x s => encode x = Some s) vec parts ->
    encode (VVector vec) = Some (["["%char] ++ join [","%char] parts ++ ["]"%char])
    /\ exists lg',
         PutDecay (VVector vec) lg = Some lg'
         /\ oss_ lg' = oss_ lg ++ ["["%char] ++ join [","%char] parts ++ ["]"%char]
         /\ elements_ lg' = elements_ lg.
Proof.
  intros vec parts lg Hparts.
  apply encode_all_Forall2 in Hparts.
  assert (Hvec : Forall appends vec).
  { apply Forall_forall. intros x _. apply PutDecay_appends. }
  split.
  - unfold encode. cbn [PutDecay].
    now rewrite (Put_vector_appends vec Hvec), Hparts.
  - cbn [PutDecay]. rewrite (Put_vector_appends vec Hvec), Hparts.
    eexists; split; [reflexivity|]. split; reflexivity.
Qed.

Lemma vector_is_bracketed_and_comma_separated_witness :
  encode (VVector [VVector [VInt 1; VInt 2]; VVector []; VVector [VInt 3]])
  = Some (lit "[[1,2],[],[3]]").
Proof.
  assert (H1 : encode (VVector [VInt 1; VInt 2]) = Some (lit "[1,2]")).
  { apply (vector_is_bracketed_and_comma_separated
             [VInt 1; VInt 2] [lit "1"; lit "2"] (mkJsonLogger [] 0)).
    repeat constructor. }
  assert (H2 : encode (VVector []) = Some (lit "[]")).
  { apply (vector_is_bracketed_and_comma_separated [] [] (mkJsonLogger [] 0)).
    constructor. }
  assert (H3 : encode (VVector [VInt 3]) = Some (lit "[3]")).
  { apply (vector_is_bracketed_and_comma_separated
             [VInt 3] [lit "3"] (mkJsonLogger [] 0)).
    repeat constructor. }
  apply (vector_is_bracketed_and_comma_separated
           [VVector [VInt 1; VInt 2]; VVector []; VVector [VInt 3]]
           [lit "[1,2]"; lit "[]"; lit "[3]"] (mkJsonLogger [] 0)).
  repeat constructor; assumption.
Defined.

(** ** Separators and the count of fields *)

Lemma PutSeparator_rule lg :
  0 <= elements_ lg ->
  PutSeparator lg =
  mkJsonLogger (oss_ lg ++ separator (elements_ lg))
               ((elements_ lg + 1) mod SIZE_MAX_plus_1).
Proof.
  intros He. unfold PutSeparator, separator.
  destruct (Z.ltb_spec 0 (elements_ lg)) as [Hpos|Hzero].
  - destruct (Z.eqb_spec (elements_ lg) 0) as [E|_]; [lia|].
    rewrite Zmod_even. now destruct (Z.even (elements_ lg)).
  - destruct (Z.eqb_spec (elements_ lg) 0) as [_|E]; [|lia].
    now rewrite app_nil_r.
Qed.

Lemma shl_logger_text t s lg :
  encode t = Some s ->
  0 <= elements_ lg ->
  shl_logger t lg =
  Some (mkJsonLogger (oss_ lg ++ separator (elements_ lg) ++ s)
                     ((elements_ lg + 1) mod SIZE_MAX_plus_1)).
Proof.
  intros Hs He. unfold shl_logger.
  rewrite PutDecay_appends, Hs, PutSeparator_rule by assumption.
  cbn [option_map]. unfold oss_write; simpl. now rewrite app_assoc.
Qed.

(** ** Calls on the program state *)

Lemma loggers_set_logger a lg w : loggers (set_logger a lg w) a = lg.
Proof. simpl. now rewrite Nat.eqb_refl. Qed.

Lemma loggers_set_logger_other a a' lg w :
  a' <> a -> loggers (set_logger a lg w) a' = loggers w a'.
Proof. intros H. simpl. apply Nat.eqb_neq in H. now rewrite H. Qed.

Lemma JsonLine_shl_run line t w :
  JsonLine_shl line t w =
  match shl_logger t (loggers w (logger_ line)) with
  | Some lg => Returns line (set_logger (logger_ line) lg w)
  | None => Undefined
  end.
Proof.
  unfold JsonLine_shl, bind, on_logger, ret.
  now destruct (shl_logger t (loggers w (logger_ line))).
Qed.

Lemma no_output_ret {A : Type} (a : A) : no_output (ret a).
Proof. intros w. reflexivity. Qed.

Lemma no_output_bind {A B : Type} (c : M A) (k : A -> M B) :
  no_output c -> (forall a, no_output (k a)) -> no_output (bind c k).
Proof.
  intros Hc Hk w. unfold bind. specialize (Hc w).
  destruct (c w) as [a w1| w1|]; [|assumption|exact I].
  specialize (Hk a w1). destruct (k a w1); congruence || exact I.
Qed.

Lemma no_output_on_logger a f : no_output (on_logger a f).
Proof.
  intros w. unfold on_logger. now destruct (f (loggers w a)).
Qed.

Lemma no_output_JsonLine_shl line t : no_output (JsonLine_shl line t).
Proof.
  unfold JsonLine_shl. apply no_output_bind.
  - apply no_output_on_logger.
  - intros _. apply no_output_ret.
Qed.

Lemma no_output_JsonLogger_line this now : no_output (JsonLogger_line this now).
Proof.
  unfold JsonLogger_line.
  repeat (apply no_output_bind;
          [first [apply no_output_on_logger | apply no_output_JsonLine_shl]
          |intros ?]).
  apply no_output_ret.
Qed.

Lemma no_output_JsonLogger_shl this now t : no_output (JsonLogger_shl this now t).
Proof.
  unfold JsonLogger_shl.
  apply no_output_bind; [apply no_output_JsonLogger_line|intros out].
  apply no_output_bind; [apply no_output_JsonLine_shl|intros _].
  apply no_output_ret.
Qed.

Lemma encode_ts : encode (VCharArray (c_literal "ts")) = Some ([DQUOTE] ++ lit "ts" ++ [DQUOTE]).
Proof. reflexivity. Qed.

Lemma encode_long now : encode (VLong now) = Some (dec now).
Proof. reflexivity. Qed.

Lemma JsonLogger_line_run this now w :
  exists w',
    JsonLogger_line this now w = Returns (JsonLine_ctor this) w'
    /\ loggers w' this = mkJsonLogger (body_text now []) 2
    /\ cout w' = cout w
    /\ (forall a, a <> this -> loggers w' a = loggers w a).
Proof.
  unfold JsonLogger_line, bind, on_logger.
  rewrite JsonLine_shl_run. cbn [logger_ JsonLine_ctor].
  rewrite !loggers_set_logger.
  rewrite (shl_logger_text _ _ _ encode_ts) by (simpl; lia).
  cbn [oss_ elements_].
  rewrite JsonLine_shl_run. cbn [logger_ JsonLine_ctor].
  rewrite !loggers_set_logger.
  rewrite (shl_logger_text _ _ _ (encode_long now)) by (vm_compute; discriminate).
  cbn [ret oss_ elements_]. eexists. split; [reflexivity|].
  split; [|split].
  - rewrite loggers_set_logger. unfold body_text, pairs_text. simpl.
    now rewrite app_nil_r.
  - reflexivity.
  - intros a Ha. now rewrite !loggers_set_logger_other by assumption.
Qed.

(** C5. [line()] empties the collector and the count of fields, binds a
    line to this logger and puts the key [ts] and the count of
    microseconds of the clock as the first pair, whatever the logger held
    before; nothing reaches [std::cout], neither from [line()] nor from
    either [operator<<]: only [Output] writes. *)
Theorem line_starts_record_without_output :
  forall (this : addr) (now : Z) (w : World),
    (exists w',
        JsonLogger_line this now w = Returns (JsonLine_ctor this) w'
        /\ logger_ (JsonLine_ctor this) = this
        /\ oss_ (loggers w' this)
           = [DQUOTE] ++ lit "ts" ++ [DQUOTE] ++ [":"%char] ++ dec now
        /\ elements_ (loggers w' this) = 2
        /\ cout w' = cout w)
    /\ no_output (JsonLogger_line this now)
    /\ (forall line t, no_output (JsonLine_shl line t))
    /\ (forall t, no_output (JsonLogger_shl this now t)).
Proof.
  intros this now w. split; [|split; [|split]].
  - destruct (JsonLogger_line_run this now w) as (w' & Hrun & Hlg & Hcout & _).
    exists w'. rewrite Hlg. repeat split; try assumption.
    unfold body_text, pairs_text. simpl. now rewrite app_nil_r.
  - apply no_output_JsonLogger_line.
  - apply no_output_JsonLine_shl.
  - apply no_output_JsonLogger_shl.
Qed.

(** ** The destructor *)

Lemma JsonLine_dtor_odd line w :
  Z.odd (elements_ (loggers w (logger_ line))) = true ->
  JsonLine_dtor line w = Aborts w.
Proof.
  intros Hodd. unfold JsonLine_dtor, bind, assert_.
  rewrite Zmod_even, <- Z.negb_even in *.
  now destruct (Z.even (elements_ (loggers w (logger_ line)))).
Qed.

Lemma JsonLine_dtor_even line w :
  Z.even (elements_ (loggers w (logger_ line))) = true ->
  JsonLine_dtor line w = Output (logger_ line) w.
Proof.
  intros Heven. unfold JsonLine_dtor, bind, assert_.
  now rewrite Zmod_even, Heven.
Qed.

(** C2. The destructor of a line whose logger counts an odd number of
    fields fails its assertion, and the program stops with the sink as it
    was: no record is written. With an even count the destructor is the
    call of [Output] on the logger of the line. *)
Theorem destructor_asserts_balanced_pairs :
  forall (line : JsonLine) (w : World),
    (Z.odd (elements_ (loggers w (logger_ line))) = true ->
       JsonLine_dtor line w = Aborts w
       /\ output_of (JsonLine_dtor line w) = Some (sent (cout w)))
    /\ (Z.even (elements_ (loggers w (logger_ line))) = true ->
       JsonLine_dtor line w = Output (logger_ line) w).
Proof.
  intros line w. split.
  - intros Hodd. rewrite (JsonLine_dtor_odd line w Hodd). split; reflexivity.
  - apply JsonLine_dtor_even.
Qed.

Lemma destructor_asserts_balanced_pairs_witness :
  let odd := mkWorld (fun _ => mkJsonLogger (body_text 7 [] ++ lit ",k") 3)
                     (mkOstream [] false 80) in
  let even := mkWorld (fun _ => mkJsonLogger (body_text 7 []) 2)
                      (mkOstream [] false 80) in
  JsonLine_dtor (mkJsonLine 0%nat) odd = Aborts odd
  /\ output_of (JsonLine_dtor (mkJsonLine 0%nat) odd) = Some []
  /\ JsonLine_dtor (mkJsonLine 0%nat) even = Output 0%nat even.
Proof.
  intros odd even.
  destruct (destructor_asserts_balanced_pairs (mkJsonLine 0%nat) odd) as [Hodd _].
  destruct (destructor_asserts_balanced_pairs (mkJsonLine 0%nat) even) as [_ Heven].
  destruct (Hodd eq_refl) as [Habort Hout].
  split; [exact Habort|]. split; [exact Hout|].
  exact (Heven eq_refl).
Defined.

(** ** The sink *)

Lemma ostream_write_app s t : forall os,
  ostream_write (s ++ t) os = ostream_write t (ostream_write s os).
Proof. induction s as [|ch s IH]; intros os; simpl; [reflexivity|apply IH]. Qed.

Lemma ostream_write_bad s : forall os,
  badbit os = true -> ostream_write s os = os.
Proof.
  induction s as [|ch s IH]; intros os Hbad; simpl; [reflexivity|].
  unfold ostream_put. rewrite Hbad. now apply IH.
Qed.

Lemma ostream_write_good s : forall os,
  badbit os = false ->
  ostream_write s os =
  if (List.length s <=? room os)%nat
  then mkOstream (sent os ++ s) false (room os - List.length s)
  else mkOstream (sent os ++ firstn (room os) s) true 0.
Proof.
  induction s as [|ch s IH]; intros [snt bad rm] Hbad; simpl in *; subst bad.
  - now rewrite app_nil_r, Nat.sub_0_r.
  - unfold ostream_put; simpl. destruct rm as [|rm].
    + rewrite ostream_write_bad by reflexivity. simpl. now rewrite app_nil_r.
    + rewrite IH by reflexivity. simpl.
      destruct (List.length s <=? rm)%nat; now rewrite <- app_assoc.
Qed.

Lemma Output_run this w :
  Output this w =
  Returns tt (set_cout (ostream_write (record_line (oss_ (loggers w this))) (cout w)) w).
Proof.
  unfold Output, record_line, ostream_endl.
  simpl. now rewrite ostream_write_app.
Qed.

(** ** No value brings a line terminator *)

Lemma one_line_app s t : one_line s -> one_line t -> one_line (s ++ t).
Proof. unfold one_line. intros Hs Ht Hin. apply in_app_or in Hin. tauto. Qed.

Lemma one_line_cons ch s : ch <> LF -> one_line s -> one_line (ch :: s).
Proof. unfold one_line. intros Hch Hs [Hin|Hin]; [congruence|tauto]. Qed.

Lemma one_line_nil : one_line [].
Proof. intros []. Qed.

Create HintDb one_line.
#[local] Hint Resolve one_line_nil one_line_app : one_line.

(** Known characters in front, and what the hints know of the rest. *)
Ltac one_line_chars :=
  repeat (apply one_line_cons; [discriminate|]); auto with one_line.

Lemma one_line_lit_uint d : one_line (lit (NilEmpty.string_of_uint d)).
Proof. induction d; simpl; one_line_chars. Qed.

Lemma one_line_dec z : one_line (dec z).
Proof.
  unfold dec. destruct (Z.to_int z) as [d|d]; simpl.
  - destruct d; try apply (one_line_lit_uint (_ _)). one_line_chars.
  - apply one_line_cons; [discriminate|].
    destruct d; try apply (one_line_lit_uint (_ _)). one_line_chars.
Qed.

Lemma digit_not_LF r : digit (r mod 10) <> LF.
Proof.
  pose proof (Z.mod_pos_bound r 10 eq_refl) as Hr.
  assert (H : r mod 10 = 0 \/ r mod 10 = 1 \/ r mod 10 = 2 \/ r mod 10 = 3
              \/ r mod 10 = 4 \/ r mod 10 = 5 \/ r mod 10 = 6 \/ r mod 10 = 7
              \/ r mod 10 = 8 \/ r mod 10 = 9) by lia.
  repeat (destruct H as [H|H]; [rewrite H; discriminate|]).
  rewrite H; discriminate.
Qed.

Lemma one_line_pad_digits w : forall r, one_line (pad_digits w r).
Proof.
  induction w as [|w IH]; intros r; simpl; [apply one_line_nil|].
  apply one_line_app; [apply IH|].
  apply one_line_cons; [apply digit_not_LF|apply one_line_nil].
Qed.

Lemma one_line_frac_part w : forall r, one_line (frac_part w r).
Proof.
  induction w as [|w IH]; intros r; [apply one_line_nil|].
  cbn [frac_part]. destruct (r mod 10 =? 0); [apply IH|].
  apply one_line_cons; [discriminate|apply one_line_pad_digits].
Qed.

#[local] Hint Resolve one_line_dec one_line_frac_part : one_line.

Lemma one_line_fixed_text q s : one_line (fixed_text q s).
Proof. unfold fixed_text. auto with one_line. Qed.

Lemma one_line_exp_text X : one_line (exp_text X).
Proof.
  unfold exp_text. apply one_line_cons; [discriminate|].
  apply one_line_cons; [destruct (X <? 0); discriminate|].
  destruct (Z.abs X <? 10); one_line_chars.
Qed.

#[local] Hint Resolve one_line_fixed_text one_line_exp_text : one_line.

Lemma one_line_sign_text s : one_line (sign_text s).
Proof. destruct s; simpl; one_line_chars. Qed.

#[local] Hint Resolve one_line_sign_text : one_line.

Lemma one_line_fmt_double d : one_line (fmt_double d).
Proof.
  destruct d as [s|s| |s m e]; cbn [fmt_double].
  - apply one_line_app; [auto with one_line|simpl; one_line_chars].
  - apply one_line_app; [auto with one_line|simpl; one_line_chars].
  - simpl; one_line_chars.
  - destruct (frac_of m e) as [num den].
    unfold fmt_g. destruct (round_sig default_precision num den) as [q X].
    destruct ((-4 <=? X) && (X <? default_precision)); auto with one_line.
Qed.

Lemma one_line_escaped ch : one_line (escaped ch).
Proof.
  unfold escaped, escaping_table, table_lookup.
  by_table_row ch ltac:(one_line_chars).
  apply one_line_cons; [assumption|apply one_line_nil].
Qed.

Lemma one_line_quoted s : one_line (quoted s).
Proof.
  unfold quoted. apply one_line_cons; [discriminate|].
  apply one_line_app; [|one_line_chars].
  induction s as [|ch s IH]; simpl; [apply one_line_nil|].
  apply one_line_app; [apply one_line_escaped|exact IH].
Qed.

Lemma one_line_join parts :
  Forall one_line parts -> one_line (join [","%char] parts).
Proof.
  induction 1 as [|x rest Hx Hrest IH]; [apply one_line_nil|].
  rewrite join_cons. apply one_line_app; [exact Hx|].
  clear IH. induction Hrest as [|y rest Hy _ IH]; simpl; one_line_chars.
Qed.

#[local] Hint Resolve one_line_fmt_double one_line_quoted one_line_join : one_line.

Lemma one_line_encode t : forall s, encode t = Some s -> one_line s.
Proof.
  induction t as [b|z|z|z|z|d|mem|arr|str|vec IH] using Value_nested_ind;
    intros s; unfold encode; cbn [PutDecay];
    try (intros [= <-]; auto with one_line; fail).
  - intros [= <-]. destruct b; simpl; one_line_chars.
  - rewrite Put_cstr_c_str. destruct (c_str mem); intros [= <-].
    apply one_line_quoted.
  - rewrite Put_cstr_c_str. destruct (c_str arr); intros [= <-].
    apply one_line_quoted.
  - rewrite Put_string_quoted. intros [= <-]. apply one_line_quoted.
  - rewrite Put_vector_appends
      by (apply Forall_forall; intros x _; apply PutDecay_appends).
    destruct (encode_all vec) as [parts|] eqn:Hparts; intros [= <-].
    apply encode_all_Forall2 in Hparts.
    apply one_line_cons; [discriminate|].
    apply one_line_app; [|one_line_chars].
    apply one_line_join.
    clear -IH Hparts. induction Hparts as [|x p vec parts Hx _ IHp]; constructor.
    + inversion IH; subst; auto.
    + apply IHp. now inversion IH.
Qed.

Lemma one_line_pairs_text pairs kvs :
  encoded_pairs pairs kvs -> one_line (pairs_text kvs).
Proof.
  induction 1 as [|[key value] [ks vs] pairs kvs [Hk Hv] _ IH];
    [apply one_line_nil|].
  unfold pairs_text. cbn [flat_map fst snd] in *.
  apply one_line_app; [|exact IH].
  apply one_line_cons; [discriminate|].
  apply one_line_app; [now apply (one_line_encode key)|].
  apply one_line_cons; [discriminate|].
  now apply (one_line_encode value).
Qed.

(** ** Records *)

Lemma append_pairs_run (out : JsonLine) pairs kvs :
  encoded_pairs pairs kvs ->
  forall w,
    0 < elements_ (loggers w (logger_ out)) ->
    Z.even (elements_ (loggers w (logger_ out))) = true ->
    elements_ (loggers w (logger_ out)) + 2 * Z.of_nat (List.length pairs)
      < SIZE_MAX_plus_1 ->
    exists w',
      append_pairs out pairs w = Returns tt w'
      /\ loggers w' (logger_ out)
         = mkJsonLogger
             (oss_ (loggers w (logger_ out)) ++ pairs_text kvs)
             (elements_ (loggers w (logger_ out)) + 2 * Z.of_nat (List.length pairs))
      /\ cout w' = cout w.
Proof.
  induction 1 as [|[key value] [ks vs] pairs kvs [Hk Hv] _ IH];
    intros w Hpos Heven Hmax.
  - exists w. simpl. rewrite app_nil_r, Z.add_0_r.
    now destruct (loggers w (logger_ out)).
  - simpl in Hk, Hv. cbn [append_pairs]. unfold bind at 1.
    rewrite JsonLine_shl_run, (shl_logger_text _ _ _ Hk) by lia.
    unfold bind at 1.
    rewrite JsonLine_shl_run, loggers_set_logger.
    rewrite (shl_logger_text _ _ _ Hv)
      by (cbn [elements_]; apply Z.mod_pos_bound; reflexivity).
    cbn [oss_ elements_].
    set (e := elements_ (loggers w (logger_ out))) in *.
    change (List.length ((key, value) :: pairs)) with (S (List.length pairs)) in *.
    assert (E1 : (e + 1) mod SIZE_MAX_plus_1 = e + 1)
      by (apply Z.mod_small; lia).
    assert (E2 : (e + 1 + 1) mod SIZE_MAX_plus_1 = e + 2)
      by (rewrite Z.mod_small; lia).
    rewrite E1, E2.
    assert (S1 : separator e = [","%char]).
    { unfold separator. destruct (Z.eqb_spec e 0); [lia|]. now rewrite Heven. }
    assert (S2 : separator (e + 1) = [":"%char]).
    { unfold separator. destruct (Z.eqb_spec (e + 1) 0); [lia|].
      now rewrite Z.even_add, Heven. }
    rewrite S1, S2.
    match goal with
    | |- context [append_pairs out pairs ?w1] =>
        destruct (IH w1) as (w' & Hrun & Hlg & Hcout)
    end.
    + rewrite loggers_set_logger. cbn [elements_]. lia.
    + rewrite loggers_set_logger. cbn [elements_].
      now rewrite Z.even_add, Heven.
    + rewrite loggers_set_logger. cbn [elements_]. lia.
    + exists w'. split; [exact Hrun|]. split; [|exact Hcout].
      rewrite Hlg, loggers_set_logger. cbn [oss_ elements_].
      f_equal; [|lia].
      unfold pairs_text. cbn [flat_map fst snd].
      now rewrite <- !app_assoc.
Qed.

Lemma separator_rule lg :
  0 <= elements_ lg ->
  oss_ (PutSeparator lg) = oss_ lg ++ separator (elements_ lg).
Proof. intros He. now rewrite PutSeparator_rule. Qed.

(** C1. A record built from [line()] and any number of complete pairs is
    written by the destructor as one line: an opening brace, the pair of
    the timestamp, the appended pairs in the order they were appended, a
    closing brace and the line terminator; a comma before each key but the
    first, a colon before each value, nothing else between the fields and
    nothing after the last; no line terminator but the last character. The
    separators come from the rule of [PutSeparator]: nothing before the
    very first field, a comma at an even count of fields, a colon at an odd
    one. *)
Theorem record_is_written_as_one_line :
  forall (this : addr) (now : Z) (pairs : list (Value * Value))
         (kvs : list (text * text)) (w : World),
    let body :=
      [DQUOTE] ++ lit "ts" ++ [DQUOTE] ++ [":"%char] ++ dec now
      ++ flat_map (fun kv => [","%char] ++ fst kv ++ [":"%char] ++ snd kv) kvs in
    encoded_pairs pairs kvs ->
    2 + 2 * Z.of_nat (List.length pairs) < SIZE_MAX_plus_1 ->
    badbit (cout w) = false ->
    (List.length (["{"%char] ++ body ++ ["}"%char] ++ [LF]) <= room (cout w))%nat ->
    (exists w',
        write_record this now pairs w = Returns tt w'
        /\ sent (cout w') = sent (cout w) ++ ["{"%char] ++ body ++ ["}"%char] ++ [LF]
        /\ ~ In LF (["{"%char] ++ body ++ ["}"%char])
        /\ badbit (cout w') = false)
    /\ (forall lg, 0 <= elements_ lg ->
          oss_ (PutSeparator lg)
          = oss_ lg ++ (if elements_ lg =? 0 then []
                        else if Z.even (elements_ lg) then [","%char]
                             else [":"%char])).
Proof.
  intros this now pairs kvs w body Hpairs Hmax Hgood Hroom.
  assert (Hbody : body = body_text now kvs) by reflexivity.
  clearbody body. subst body.
  split; [|exact separator_rule].
  unfold write_record, bind.
  destruct (JsonLogger_line_run this now w) as (w1 & Hline & Hlg1 & Hcout1 & _).
  rewrite Hline.
  destruct (append_pairs_run (JsonLine_ctor this) pairs kvs Hpairs w1)
    as (w2 & Happ & Hlg2 & Hcout2).
  - cbn [logger_ JsonLine_ctor]. now rewrite Hlg1.
  - cbn [logger_ JsonLine_ctor]. now rewrite Hlg1.
  - cbn [logger_ JsonLine_ctor]. rewrite Hlg1. exact Hmax.
  - rewrite Happ.
    cbn [logger_ JsonLine_ctor] in Hlg2. rewrite Hlg1 in Hlg2.
    cbn [oss_ elements_] in Hlg2.
    assert (Hsame : body_text now [] ++ pairs_text kvs = body_text now kvs).
    { unfold body_text. cbn [pairs_text flat_map].
      now rewrite app_nil_r, <- !app_assoc. }
    rewrite Hsame in Hlg2.
    rewrite JsonLine_dtor_even.
    2:{ cbn [logger_ JsonLine_ctor]. rewrite Hlg2. cbn [elements_].
        rewrite Z.even_add, Z.even_mul. reflexivity. }
    cbn [logger_ JsonLine_ctor]. rewrite Output_run, Hlg2. cbn [oss_].
    eexists. split; [reflexivity|].
    cbn [cout set_cout]. rewrite Hcout2, Hcout1.
    rewrite ostream_write_good by assumption.
    change (["{"%char] ++ body_text now kvs ++ ["}"%char] ++ [LF])
      with (record_line (body_text now kvs)) in *.
    apply Nat.leb_le in Hroom. rewrite Hroom. cbn [sent badbit].
    split; [reflexivity|]. split; [|reflexivity].
    apply one_line_cons; [discriminate|].
    apply one_line_app; [|apply one_line_cons; [discriminate|apply one_line_nil]].
    unfold body_text.
    repeat (apply one_line_cons; [discriminate|]).
    apply one_line_app; [apply one_line_dec|].
    now apply (one_line_pairs_text pairs).
Qed.

Lemma record_is_written_as_one_line_witness :
  let w := mkWorld (fun _ => mkJsonLogger (lit "old") 5) (mkOstream [] false 64) in
  exists w',
    write_record 0%nat 12345 [(VCharArray (c_literal "count"), VInt 42)] w
    = Returns tt w'
    /\ sent (cout w')
       = lit "{" ++ [DQUOTE] ++ lit "ts" ++ [DQUOTE] ++ lit ":12345,"
         ++ [DQUOTE] ++ lit "count" ++ [DQUOTE] ++ lit ":42}" ++ [LF].
Proof.
  intros w.
  destruct (record_is_written_as_one_line
              0%nat 12345 [(VCharArray (c_literal "count"), VInt 42)]
              [([DQUOTE] ++ lit "count" ++ [DQUOTE], lit "42")] w)
    as [(w' & Hrun & Hsent & _) _].
  - repeat constructor.
  - reflexivity.
  - reflexivity.
  - vm_compute. repeat constructor.
  - exists w'. split; [exact Hrun|]. rewrite Hsent. reflexivity.
Defined.

(** ** Lines that are moved *)

Lemma moved_line_shares_the_logger (a : JsonLine) :
  logger_ (JsonLine_move a) = logger_ a
  /\ forall w, JsonLine_dtor (JsonLine_move a) w = JsonLine_dtor a w.
Proof. split; reflexivity. Qed.

(** C3, on the code. A line that is moved is flushed by the destructor of
    the object it was moved from and again by the destructor of the object
    it was moved to: the block with one [line()] and one move writes the
    record twice, where the block without the move writes it once. *)
Theorem moved_line_is_flushed_twice :
  let w := mkWorld (fun _ => mkJsonLogger [] 0) (mkOstream [] false 100) in
  let key := VCharArray (c_literal "count") in
  let rec := lit "{" ++ [DQUOTE] ++ lit "ts" ++ [DQUOTE] ++ lit ":7,"
             ++ [DQUOTE] ++ lit "count" ++ [DQUOTE] ++ lit ":42}" ++ [LF] in
  output_of (write_record 0%nat 7 [(key, VInt 42)] w) = Some rec
  /\ output_of (moved_record 0%nat 7 key (VInt 42) w) = Some (rec ++ rec).
Proof. split; vm_compute; reflexivity. Qed.

(** The same on the way out of [line()], when the compiler moves [out]
    into the return value: the record so far is written before the caller
    has appended anything. *)
Remark line_not_elided_flushes_early :
  let w := mkWorld (fun _ => mkJsonLogger [] 0) (mkOstream [] false 100) in
  output_of (JsonLogger_line_not_elided 0%nat 7 w)
  = Some (lit "{" ++ [DQUOTE] ++ lit "ts" ++ [DQUOTE] ++ lit ":7}" ++ [LF])
  /\ output_of (JsonLogger_line 0%nat 7 w) = Some [].
Proof. split; vm_compute; reflexivity. Qed.

(** ** A sink that fails *)

(** C4, as stated, fails: on a sink with room for four characters a flush
    of a longer record returns normally, with the stream in error. *)
Lemma flush_swallows_sink_failure : ~ flush_reports_failure.
Proof.
  intros H.
  apply (H 0%nat
           (mkWorld (fun _ => mkJsonLogger (body_text 7 []) 2) (mkOstream [] false 4))
           _ (Output_run _ _)).
  split; reflexivity.
Qed.

(** C4, amended. [Output] always returns normally, whatever the sink does.
    What the sink had taken before is kept; the sink takes a prefix of the
    line of the record, written once; and when it has not taken the whole
    line the stream is in its error state, which is all that tells of the
    failure. The loggers are as they were. *)
Theorem flush_returns_normally_on_failure :
  forall (this : addr) (w : World),
    exists w' taken rest,
      Output this w = Returns tt w'
      /\ sent (cout w') = sent (cout w) ++ taken
      /\ record_line (oss_ (loggers w this)) = taken ++ rest
      /\ (rest = [] \/ badbit (cout w') = true)
      /\ loggers w' = loggers w.
Proof.
  intros this w.
  set (line := record_line (oss_ (loggers w this))).
  destruct (badbit (cout w)) eqn:Hbad.
  - exists (set_cout (cout w) w), [], line.
    rewrite Output_run, ostream_write_bad by assumption.
    cbn [cout set_cout loggers]. rewrite app_nil_r.
    repeat split; auto.
  - destruct (List.length line <=? room (cout w))%nat eqn:Hfit.
    + eexists _, line, []. rewrite Output_run, ostream_write_good by assumption.
      fold line. rewrite Hfit. cbn [cout set_cout sent loggers].
      rewrite app_nil_r. repeat split; auto.
    + eexists _, (firstn (room (cout w)) line), (skipn (room (cout w)) line).
      rewrite Output_run, ostream_write_good by assumption.
      fold line. rewrite Hfit. cbn [cout set_cout sent badbit loggers].
      rewrite firstn_skipn. repeat split; auto.
Qed.

(** ** Escaping and decoding *)

Lemma high_byte_is_plain b :
  (128 <= nat_of_ascii b)%nat ->
  Ascii.eqb b DQUOTE = false /\ Ascii.eqb b BACKSLASH = false
  /\ (nat_of_ascii b <? 32)%nat = false /\ escaped b = [b].
Proof.
  intros H.
  assert (Hne : forall c, (nat_of_ascii c < 128)%nat -> Ascii.eqb b c = false).
  { intros c Hc. apply Ascii.eqb_neq. intros ->. lia. }
  split; [apply Hne; vm_compute; lia|].
  split; [apply Hne; vm_compute; lia|].
  split; [apply Nat.ltb_ge; lia|].
  unfold escaped, escaping_table, table_lookup.
  now rewrite !Hne by (vm_compute; lia).
Qed.

Lemma utf8_length_high b :
  (2 <= utf8_length b)%nat -> (128 <= nat_of_ascii b)%nat.
Proof.
  unfold utf8_length. cbv zeta.
  destruct (Nat.ltb_spec (nat_of_ascii b) 128); [simpl; lia|intros _; assumption].
Qed.

Lemma utf8_second_high a b : utf8_second a b = true -> (128 <= nat_of_ascii b)%nat.
Proof.
  unfold utf8_second, in_range. cbv zeta.
  repeat match goal with
         | |- context [(nat_of_ascii a =? ?k)%nat] =>
             destruct (nat_of_ascii a =? k)%nat
         end;
    intros H; apply andb_prop in H as [H _]; apply Nat.leb_le in H; lia.
Qed.

Lemma utf8_tail_high b : utf8_tail b = true -> (128 <= nat_of_ascii b)%nat.
Proof.
  unfold utf8_tail, in_range. intros H.
  apply andb_prop in H as [H _]. apply Nat.leb_le in H. lia.
Qed.

Lemma json_chars_escaped_upto n : forall str,
  (List.length str <= n)%nat ->
  well_formed_utf8 str = true ->
  forallb escaped_or_printable str = true ->
  json_chars (flat_map escaped str ++ [DQUOTE]) = Some str.
Proof.
  induction n as [|n IH]; intros str Hlen Hwf Hpr.
  { destruct str; [reflexivity|simpl in Hlen; lia]. }
  destruct str as [|ch rest]; [reflexivity|].
  cbn [forallb] in Hpr. apply andb_prop in Hpr as [Hch Hrest].
  cbn [well_formed_utf8] in Hwf. cbn [List.length] in Hlen.
  destruct (utf8_length ch) as [|[|[|[|[|k]]]]] eqn:Hfirst;
    try discriminate Hwf.
  - (* one byte *)
    assert (IH' := IH rest ltac:(lia) Hwf Hrest).
    cbn [flat_map]. rewrite <- app_assoc.
    unfold escaped_or_printable, escaped, escaping_table, table_lookup in *.
    by_table_row ch ltac:(cbn; now rewrite IH').
    cbn [app json_chars].
    repeat match goal with
           | Hne : ch <> ?c |- context [Ascii.eqb ch ?c] =>
               rewrite (proj2 (Ascii.eqb_neq ch c) Hne)
           end.
    apply Nat.leb_le in Hch.
    destruct (Nat.ltb_spec (nat_of_ascii ch) 32) as [Hlt|_]; [lia|].
    now rewrite Hfirst, IH'.
  - (* two bytes *)
    destruct rest as [|c1 rest1]; [discriminate Hwf|].
    apply andb_prop in Hwf as [H1 Hwf].
    cbn [forallb] in Hrest. apply andb_prop in Hrest as [_ Hrest].
    cbn [List.length] in Hlen.
    assert (IH' := IH rest1 ltac:(lia) Hwf Hrest).
    destruct (high_byte_is_plain ch) as (Hq & Hb & Hc & He);
      [apply utf8_length_high; rewrite Hfirst; lia|].
    destruct (high_byte_is_plain c1) as (_ & _ & _ & He1);
      [now apply (utf8_second_high ch)|].
    cbn [flat_map]. rewrite He, He1. cbn [app json_chars].
    rewrite Hq, Hb, Hc, Hfirst, H1, IH'. reflexivity.
  - (* three bytes *)
    destruct rest as [|c1 [|c2 rest2]]; try discriminate Hwf.
    apply andb_prop in Hwf as [H12 Hwf]. pose proof H12 as H12'.
    apply andb_prop in H12' as [H1 H2].
    cbn [forallb] in Hrest.
    apply andb_prop in Hrest as [_ Hrest]. apply andb_prop in Hrest as [_ Hrest].
    cbn [List.length] in Hlen.
    assert (IH' := IH rest2 ltac:(lia) Hwf Hrest).
    destruct (high_byte_is_plain ch) as (Hq & Hb & Hc & He);
      [apply utf8_length_high; rewrite Hfirst; lia|].
    destruct (high_byte_is_plain c1) as (_ & _ & _ & He1);
      [now apply (utf8_second_high ch)|].
    destruct (high_byte_is_plain c2) as (_ & _ & _ & He2);
      [now apply utf8_tail_high|].
    cbn [flat_map]. rewrite He, He1, He2. cbn [app json_chars].
    rewrite Hq, Hb, Hc, Hfirst, H12, IH'. reflexivity.
  - (* four bytes *)
    destruct rest as [|c1 [|c2 [|c3 rest3]]]; try discriminate Hwf.
    apply andb_prop in Hwf as [H123 Hwf]. pose proof H123 as H123'.
    apply andb_prop in H123' as [H12 H3]. apply andb_prop in H12 as [H1 H2].
    cbn [forallb] in Hrest.
    apply andb_prop in Hrest as [_ Hrest]. apply andb_prop in Hrest as [_ Hrest].
    apply andb_prop in Hrest as [_ Hrest].
    cbn [List.length] in Hlen.
    assert (IH' := IH rest3 ltac:(lia) Hwf Hrest).
    destruct (high_byte_is_plain ch) as (Hq & Hb & Hc & He);
      [apply utf8_length_high; rewrite Hfirst; lia|].
    destruct (high_byte_is_plain c1) as (_ & _ & _ & He1);
      [now apply (utf8_second_high ch)|].
    destruct (high_byte_is_plain c2) as (_ & _ & _ & He2);
      [now apply utf8_tail_high|].
    destruct (high_byte_is_plain c3) as (_ & _ & _ & He3);
      [now apply utf8_tail_high|].
    cbn [flat_map]. rewrite He, He1, He2, He3. cbn [app json_chars].
    rewrite Hq, Hb, Hc, Hfirst, H123, IH'. reflexivity.
Qed.

Lemma json_chars_escaped str :
  well_formed_utf8 str = true ->
  forallb escaped_or_printable str = true ->
  json_chars (flat_map escaped str ++ [DQUOTE]) = Some str.
Proof. apply (json_chars_escaped_upto (List.length str)). lia. Qed.

(** C7, as stated, fails: the byte 0x01 has no row in the table, goes out
    as it is, and a JSON decoder refuses it. *)
Lemma control_character_breaks_round_trip : ~ round_trip_as_stated.
Proof.
  intros H. specialize (H ["001"%char] eq_refl). discriminate H.
Qed.

(** Nor does a byte that is not UTF-8 come back: 0xFF has no row in the
    table either, goes out as it is, and starts no UTF-8 sequence. *)
Remark invalid_utf8_breaks_round_trip :
  forallb listed_or_table_free ["255"%char] = true
  /\ forallb escaped_or_printable ["255"%char] = true
  /\ round_trip ["255"%char] = None.
Proof. repeat split. Qed.

(** C7, amended. A string that is well-formed UTF-8, as every string of
    ASCII characters is, and whose characters have a row in the escaping
    table or are not below 0x20, is given back unchanged by a JSON string
    decoder run on its encoding; so is the C string of these characters. *)
Theorem escaping_round_trips_through_json_decoder :
  forall (str rest : text),
    well_formed_utf8 str = true ->
    forallb escaped_or_printable str = true ->
    round_trip str = Some str
    /\ exists e, encode (VCStr (str ++ NUL :: rest)) = Some e
                 /\ json_decode_string e = Some str.
Proof.
  intros str rest Hwf Hstr.
  assert (Hdec : json_decode_string (quoted str) = Some str).
  { unfold quoted. cbn. now apply json_chars_escaped. }
  split.
  - unfold round_trip, encode. cbn [PutDecay]. now rewrite Put_string_quoted.
  - exists (quoted str). split; [|exact Hdec].
    unfold encode. cbn [PutDecay]. rewrite Put_cstr_quoted; [reflexivity|].
    intros Hin. apply (proj1 (forallb_forall _ _) Hstr) in Hin. discriminate Hin.
Qed.

Lemma escaping_round_trips_through_json_decoder_witness :
  let str := lit "a\b/c" ++ [DQUOTE; LF; TAB; CR; BS; FF] ++ lit "d"
             ++ ["195"%char; "169"%char; "226"%char; "130"%char; "172"%char] in
  round_trip str = Some str.
Proof.
  intros str.
  exact (proj1 (escaping_round_trips_through_json_decoder str [] eq_refl eq_refl)).
Defined.

(** ** The text of a double *)





(** What a locale with grouping and a decimal comma makes of numbers. *)
Remark numbers_in_comma_locale :
  localize comma_locale (dec 1234567) = lit "1.234.567"
  /\ localize comma_locale (dec (-1234)) = lit "-1.234"
  /\ localize comma_locale (dec 123) = lit "123"
  /\ localize comma_locale
       (fmt_double (S754_finite false (123456 * 2 ^ 36)%positive (-36)))
     = lit "123.456"
  /\ localize comma_locale (fmt_double (S754_finite false 3 (-1))) = lit "1,5"
  /\ localize comma_locale
       (fmt_double (S754_finite true (1234567 * 2 ^ 32)%positive (-32)))
     = lit "-1,23457e+06"
  /\ localize comma_locale (fmt_double (S754_infinity true)) = lit "-inf".
Proof. vm_compute. repeat split. Qed.


Lemma exp_up_spec fuel : forall num den x,
  0 < den -> den <= num -> num < den * 2 ^ Z.of_nat fuel ->
  x <= exp_up fuel num den x
  /\ den * 10 ^ (exp_up fuel num den x - x) <= num
     < den * 10 ^ (exp_up fuel num den x - x + 1).
Proof.
  induction fuel as [|fuel IH]; intros num den x Hden Hle Hlt.
  - simpl in Hlt. lia.
  - cbn [exp_up]. destruct (Z.leb_spec (den * 10) num) as [Hten|Hten].
    + destruct (IH num (den * 10) (x + 1)) as (Hx & Hlo & Hhi); [lia|lia| |].
      * rewrite Nat2Z.inj_succ, Z.pow_succ_r in Hlt by lia.
        pose proof (Z.pow_pos_nonneg 2 (Z.of_nat fuel) ltac:(lia) ltac:(lia)).
        nia.
      * set (r := exp_up fuel num (den * 10) (x + 1)) in *.
        split; [lia|].
        replace (r - x) with (Z.succ (r - (x + 1))) by lia.
        replace (Z.succ (r - (x + 1)) + 1) with (Z.succ (r - (x + 1) + 1)) by lia.
        rewrite !Z.pow_succ_r by lia. lia.
    + split; [lia|]. rewrite Z.sub_diag. simpl. lia.
Qed.

Lemma dec_exponent_integer n den :
  0 < den -> 0 < n ->
  0 <= dec_exponent (n * den) den
  /\ 10 ^ dec_exponent (n * den) den <= n < 10 ^ (dec_exponent (n * den) den + 1).
Proof.
  intros Hden Hn. unfold dec_exponent.
  destruct (Z.leb_spec den (n * den)) as [Hle|Hgt]; [|nia].
  destruct (exp_up_spec (S (Z.to_nat (Z.log2 (n * den)))) (n * den) den 0)
    as (Hx & Hlo & Hhi); [lia|lia| |].
  - rewrite Nat2Z.inj_succ, Z2Nat.id by apply Z.log2_nonneg.
    pose proof (Z.log2_spec (n * den) ltac:(nia)) as [_ Hlog].
    pose proof (Z.pow_pos_nonneg 2 (Z.succ (Z.log2 (n * den))) ltac:(lia)
                  ltac:(pose proof (Z.log2_nonneg (n * den)); lia)).
    nia.
  - set (X := exp_up _ _ _ _) in *. rewrite Z.sub_0_r in *.
    split; [lia|]. split.
    + apply (Z.mul_le_mono_pos_l _ _ den); lia.
    + apply (Z.mul_lt_mono_pos_l den); lia.
Qed.

Lemma round_half_even_exact q den :
  0 < den -> round_half_even (q * den) den = q.
Proof.
  intros Hden. unfold round_half_even.
  rewrite Z.mod_mul, Z.div_mul by lia.
  destruct (Z.ltb_spec (2 * 0) den); [reflexivity|lia].
Qed.

Lemma frac_part_zero w : frac_part w 0 = [].
Proof. induction w as [|w IH]; [reflexivity|exact IH]. Qed.

(** An integer of at most [P] digits is written as its digits. *)
Lemma fmt_g_integer P n den :
  0 < den -> 0 < n < 10 ^ P -> 6 <= P ->
  fmt_g P (n * den) den = dec n.
Proof.
  intros Hden [Hn HnP] HP.
  destruct (dec_exponent_integer n den Hden Hn) as (HX0 & Hlo & Hhi).
  unfold fmt_g, round_sig, sig_digits.
  set (X := dec_exponent (n * den) den) in *.
  assert (HXP : X < P).
  { destruct (Z.lt_ge_cases X P) as [|Hge]; [assumption|].
    pose proof (Z.pow_le_mono_r 10 P X ltac:(lia) Hge). lia. }
  destruct (Z.leb_spec 0 (P - 1 - X)) as [_|]; [|lia].
  replace (n * den * 10 ^ (P - 1 - X)) with (n * 10 ^ (P - 1 - X) * den) by ring.
  rewrite round_half_even_exact by assumption.
  assert (Hq : n * 10 ^ (P - 1 - X) < 10 ^ P).
  { replace P with ((X + 1) + (P - 1 - X)) at 2 by lia.
    rewrite Z.pow_add_r by lia.
    apply Z.mul_lt_mono_pos_r; [apply Z.pow_pos_nonneg; lia|exact Hhi]. }
  destruct (Z.leb_spec (10 ^ P) (n * 10 ^ (P - 1 - X))) as [|_]; [lia|].
  destruct (Z.leb_spec (-4) X) as [_|]; [|lia].
  destruct (Z.ltb_spec X P) as [_|]; [|lia].
  cbn [andb]. unfold fixed_text.
  assert (Hpow : 0 < 10 ^ (P - 1 - X)) by (apply Z.pow_pos_nonneg; lia).
  rewrite Z.div_mul, Z.mod_mul by lia.
  now rewrite frac_part_zero, app_nil_r.
Qed.

(** *** Reading digits *)

Lemma digit_cases d :
  0 <= d < 10 ->
  d = 0 \/ d = 1 \/ d = 2 \/ d = 3 \/ d = 4 \/ d = 5 \/ d = 6 \/ d = 7
  \/ d = 8 \/ d = 9.
Proof. lia. Qed.

Lemma digit_value_digit d : 0 <= d < 10 -> digit_value (digit d) = Some d.
Proof.
  intros Hd. apply digit_cases in Hd.
  repeat (destruct Hd as [->|Hd]; [reflexivity|]). now subst.
Qed.

Lemma is_digit_digit d : 0 <= d < 10 -> is_digit (digit d) = true.
Proof.
  intros Hd. apply digit_cases in Hd.
  repeat (destruct Hd as [->|Hd]; [reflexivity|]). now subst.
Qed.

Lemma read_digits_from_app s t : forall acc,
  read_digits_from acc (s ++ t) =
  match read_digits_from acc s with
  | Some a => read_digits_from a t
  | None => None
  end.
Proof.
  induction s as [|ch s IH]; intros acc; simpl; [reflexivity|].
  destruct (digit_value ch); [apply IH|reflexivity].
Qed.

Lemma read_pad_digits w : forall r acc,
  0 <= r < 10 ^ Z.of_nat w ->
  read_digits_from acc (pad_digits w r) = Some (acc * 10 ^ Z.of_nat w + r).
Proof.
  induction w as [|w IH]; intros r acc Hr.
  - simpl in *. f_equal. lia.
  - rewrite Nat2Z.inj_succ, Z.pow_succ_r in * by lia.
    cbn [pad_digits]. rewrite read_digits_from_app, IH.
    + cbn [read_digits_from].
      rewrite digit_value_digit by (apply Z.mod_pos_bound; lia).
      f_equal. pose proof (Z.div_mod r 10 ltac:(lia)). lia.
    + split; [apply Z.div_pos; lia|apply Z.div_lt_upper_bound; lia].
Qed.

Lemma length_pad_digits w : forall r, List.length (pad_digits w r) = w.
Proof.
  induction w as [|w IH]; intros r; [reflexivity|].
  cbn [pad_digits]. rewrite length_app, IH. simpl. lia.
Qed.

Lemma digits_of_pad_digits w : forall r, forallb is_digit (pad_digits w r) = true.
Proof.
  induction w as [|w IH]; intros r; [reflexivity|].
  cbn [pad_digits]. rewrite forallb_app, IH. cbn [forallb andb].
  rewrite is_digit_digit by (apply Z.mod_pos_bound; lia). reflexivity.
Qed.

Lemma digits_of_uint d :
  forallb is_digit (lit (NilEmpty.string_of_uint d)) = true.
Proof. induction d; simpl; auto. Qed.

(** The digits of the printer of the library, read positionally. *)
Lemma read_uint d : forall acc,
  read_digits_from acc (lit (NilEmpty.string_of_uint d))
  = Some (acc * 10 ^ Z.of_N (DecimalPos.Unsigned.usize d)
          + Z.of_N (DecimalPos.Unsigned.of_lu (Decimal.rev d))).
Proof.
  induction d as [|d IH|d IH|d IH|d IH|d IH|d IH|d IH|d IH|d IH|d IH];
    intros acc;
    [simpl; f_equal; lia|..];
    cbn [NilEmpty.string_of_uint lit list_ascii_of_string read_digits_from];
    match goal with
    | |- context [digit_value ?c] =>
        let v := eval vm_compute in (digit_value c) in
        change (digit_value c) with v
    end;
    cbv iota; rewrite IH; f_equal;
    match goal with
    | |- context [Decimal.rev (?f d)] =>
        change (Decimal.rev (f d)) with (Decimal.revapp d (f Decimal.Nil));
        rewrite (DecimalPos.Unsigned.of_lu_revapp d (f Decimal.Nil));
        let v := eval vm_compute in (DecimalPos.Unsigned.of_lu (f Decimal.Nil)) in
        change (DecimalPos.Unsigned.of_lu (f Decimal.Nil)) with v
    end;
    cbn [DecimalPos.Unsigned.usize];
    rewrite N2Z.inj_add, N2Z.inj_mul, N2Z.inj_pow, N2Z.inj_succ;
    rewrite Z.pow_succ_r by apply N2Z.is_nonneg;
    cbn [Z.of_N]; ring.
Qed.

Lemma dec_positive p :
  dec (Zpos p) = lit (NilEmpty.string_of_uint (Pos.to_uint p))
  /\ dec (Zpos p) <> [].
Proof.
  unfold dec. cbn [Z.to_int NilZero.string_of_int NilZero.string_of_uint].
  pose proof (DecimalPos.Unsigned.to_uint_nonnil p) as Hnil.
  destruct (Pos.to_uint p); try contradiction; split; try reflexivity;
    discriminate.
Qed.

Lemma dec_nonneg n :
  0 <= n ->
  read_digits_from 0 (dec n) = Some n
  /\ forallb is_digit (dec n) = true
  /\ dec n <> [].
Proof.
  intros Hn. destruct n as [|p|p]; [| |lia].
  - repeat split. discriminate.
  - destruct (dec_positive p) as [Hdec Hne]. rewrite Hdec.
    split; [|split; [apply digits_of_uint|now rewrite <- Hdec]].
    rewrite read_uint, <- DecimalPos.Unsigned.of_uint_alt,
      DecimalPos.Unsigned.of_to.
    reflexivity.
Qed.

Lemma read_digits_dec n : 0 <= n -> read_digits (dec n) = Some n.
Proof.
  intros Hn. destruct (dec_nonneg n Hn) as (Hread & _ & Hne).
  unfold read_digits. destruct (dec n); [contradiction|exact Hread].
Qed.

(** *** Splitting at the point and at the exponent *)

Lemma split_at_none sep s : ~ In sep s -> split_at sep s = (s, None).
Proof.
  induction s as [|ch s IH]; intros Hs; [reflexivity|].
  cbn [split_at]. destruct (Ascii.eqb_spec ch sep) as [->|_].
  - exfalso; apply Hs; now left.
  - rewrite IH; [reflexivity|]. intros Hin; apply Hs; now right.
Qed.

Lemma split_at_some sep s t :
  ~ In sep s -> split_at sep (s ++ sep :: t) = (s, Some t).
Proof.
  induction s as [|ch s IH]; intros Hs.
  - cbn [app split_at]. now rewrite Ascii.eqb_refl.
  - cbn [app split_at]. destruct (Ascii.eqb_spec ch sep) as [->|_].
    + exfalso; apply Hs; now left.
    + rewrite IH; [reflexivity|]. intros Hin; apply Hs; now right.
Qed.

Lemma digits_without sep s :
  is_digit sep = false -> forallb is_digit s = true -> ~ In sep s.
Proof.
  intros Hsep Hs Hin.
  apply (proj1 (forallb_forall _ _) Hs) in Hin. congruence.
Qed.

(** *** The fraction *)

(** What [frac_part] writes: nothing for a fraction of zero, and else a
    point and the fraction without the zeros at its end. *)
Lemma frac_part_spec w : forall r,
  0 <= r < 10 ^ Z.of_nat w ->
  (frac_part w r = [] /\ r = 0)
  \/ exists w' r',
       (w' <= w)%nat
       /\ frac_part w r = "."%char :: pad_digits w' r'
       /\ r = r' * 10 ^ Z.of_nat (w - w')
       /\ 0 <= r' < 10 ^ Z.of_nat w'.
Proof.
  induction w as [|w IH]; intros r Hr.
  - left. simpl in *. split; [reflexivity|lia].
  - rewrite Nat2Z.inj_succ, Z.pow_succ_r in Hr by lia.
    cbn [frac_part]. destruct (Z.eqb_spec (r mod 10) 0) as [Hmod|Hmod].
    + pose proof (Z.div_mod r 10 ltac:(lia)) as Hdiv.
      destruct (IH (r / 10)) as [[Hnil Hzero]|(w' & r' & Hw & Htext & Hval & Hr')].
      * split; [apply Z.div_pos; lia|apply Z.div_lt_upper_bound; lia].
      * left. split; [exact Hnil|lia].
      * right. exists w', r'. split; [lia|]. split; [exact Htext|].
        split; [|exact Hr'].
        replace (S w - w')%nat with (S (w - w')) by lia.
        rewrite Nat2Z.inj_succ, Z.pow_succ_r by lia. lia.
    + right. exists (S w), r. split; [lia|]. split; [reflexivity|].
      rewrite Nat.sub_diag, Nat2Z.inj_succ, Z.pow_succ_r by lia.
      change (10 ^ Z.of_nat 0) with 1. lia.
Qed.

(** *** Powers of ten as rationals *)

Lemma pow10_pos k : 0 <= k -> 0 < 10 ^ k.
Proof. intros Hk. apply Z.pow_pos_nonneg; lia. Qed.

Lemma scale_shift n j k :
  0 <= j -> Qeq (scale (n * 10 ^ j) k) (scale n (k + j)).
Proof.
  intros Hj. unfold scale.
  destruct (Z.leb_spec 0 k) as [Hk|Hk];
    destruct (Z.leb_spec 0 (k + j)) as [Hkj|Hkj]; try lia.
  - rewrite Z.pow_add_r by lia.
    replace (n * 10 ^ j * 10 ^ k) with (n * (10 ^ k * 10 ^ j)) by ring.
    reflexivity.
  - unfold Qeq. cbn [Qnum Qden inject_Z].
    rewrite Z2Pos.id by (apply pow10_pos; lia).
    replace j with ((k + j) + - k) at 1 by lia.
    rewrite Z.pow_add_r by lia. ring.
  - unfold Qeq. cbn [Qnum Qden].
    rewrite !Z2Pos.id by (apply pow10_pos; lia).
    replace (- k) with (j + - (k + j)) by lia.
    rewrite Z.pow_add_r by lia. ring.
Qed.

(** *** Reading what [fmt_g] writes *)

Lemma fixed_text_starts_with_digit q s :
  0 <= q -> 0 <= s ->
  exists ch rest, fixed_text q s = ch :: rest /\ is_digit ch = true.
Proof.
  intros Hq Hs. unfold fixed_text.
  destruct (dec_nonneg (q / 10 ^ s)) as (_ & Hdigits & Hne).
  { apply Z.div_pos; [assumption|now apply pow10_pos]. }
  destruct (dec (q / 10 ^ s)) as [|ch rest]; [contradiction|].
  exists ch, (rest ++ frac_part (Z.to_nat s) (q mod 10 ^ s)).
  split; [reflexivity|]. cbn [forallb] in Hdigits.
  now apply andb_prop in Hdigits.
Qed.

Lemma read_unsigned_fixed q s ex x :
  0 <= q -> 0 <= s ->
  (ex = [] /\ x = 0) \/ (exists rest, ex = "e"%char :: rest /\ read_exponent rest = Some x) ->
  exists r, read_unsigned (fixed_text q s ++ ex) = Some r
            /\ Qeq r (scale q (x - s)).
Proof.
  intros Hq Hs Hex. unfold fixed_text.
  pose proof (pow10_pos s Hs) as Hpow.
  pose proof (Z.div_mod q (10 ^ s) ltac:(lia)) as Hdivmod.
  set (ip := q / 10 ^ s) in *. set (fr := q mod 10 ^ s) in *.
  assert (Hip : 0 <= ip) by (apply Z.div_pos; lia).
  assert (Hfr : 0 <= fr < 10 ^ Z.of_nat (Z.to_nat s)).
  { rewrite Z2Nat.id by assumption. apply Z.mod_pos_bound; lia. }
  destruct (dec_nonneg ip Hip) as (_ & Hdigits & _).
  pose proof (read_digits_dec ip Hip) as Hread.
  assert (Hsplit : exists w' r',
             (w' <= Z.to_nat s)%nat
             /\ fr = r' * 10 ^ Z.of_nat (Z.to_nat s - w')
             /\ 0 <= r' < 10 ^ Z.of_nat w'
             /\ ~ In "e"%char (dec ip ++ frac_part (Z.to_nat s) fr)
             /\ exists fraction,
                  split_at "." (dec ip ++ frac_part (Z.to_nat s) fr)
                  = (dec ip, fraction)
                  /\ read_fraction match fraction with Some f => f | None => [] end
                     = Some r'
                  /\ List.length match fraction with Some f => f | None => [] end
                     = w').
  { destruct (frac_part_spec _ fr Hfr)
      as [[Hnil Hzero]|(w' & r' & Hw & Htext & Hval & Hr')].
    - exists 0%nat, 0. rewrite Hnil, app_nil_r.
      split; [lia|]. split; [lia|]. split; [simpl; lia|].
      split; [now apply digits_without|].
      exists None. split; [|split; reflexivity].
      apply split_at_none. now apply digits_without.
    - exists w', r'. rewrite Htext.
      split; [assumption|]. split; [assumption|]. split; [assumption|]. split.
      + intros Hin. apply in_app_or in Hin as [Hin|[Hin|Hin]].
        * now apply (digits_without "e" (dec ip)).
        * discriminate Hin.
        * now apply (digits_without "e" (pad_digits w' r') eq_refl
                       (digits_of_pad_digits w' r')).
      + exists (Some (pad_digits w' r')). split; [|split].
        * apply split_at_some. now apply digits_without.
        * unfold read_fraction. rewrite read_pad_digits by assumption.
          f_equal; lia.
        * apply length_pad_digits. }
  destruct Hsplit as (w' & r' & Hw & Hval & Hr' & Hno_e & fraction & Hpoint & Hfrac & Hlen).
  assert (Hq_eq : q = (ip * 10 ^ Z.of_nat w' + r') * 10 ^ (s - Z.of_nat w')).
  { rewrite Nat2Z.inj_sub, Z2Nat.id in Hval by lia.
    rewrite Hdivmod, Hval.
    replace s with (Z.of_nat w' + (s - Z.of_nat w')) at 1 by lia.
    rewrite Z.pow_add_r by lia. ring. }
  assert (Hexp : exists exponent,
             split_at "e" ((dec ip ++ frac_part (Z.to_nat s) fr) ++ ex)
             = (dec ip ++ frac_part (Z.to_nat s) fr, exponent)
             /\ match exponent with Some e => read_exponent e | None => Some 0 end
                = Some x).
  { destruct Hex as [[-> ->]|(rest & -> & Hrest)].
    - exists None. rewrite app_nil_r. split; [|reflexivity].
      now apply split_at_none.
    - exists (Some rest). split; [|exact Hrest]. now apply split_at_some. }
  destruct Hexp as (exponent & He & Hx).
  unfold read_unsigned. rewrite He, Hpoint, Hread.
  destruct fraction as [f|]; cbv beta iota zeta in Hfrac, Hlen |- *;
    rewrite Hfrac, Hx, Hlen;
    (eexists; split; [reflexivity|]);
    rewrite Hq_eq at 1; rewrite scale_shift by lia;
    replace (x - s + (s - Z.of_nat w')) with (x - Z.of_nat w') by lia;
    reflexivity.
Qed.

Lemma read_exponent_exp_text X :
  exists rest, exp_text X = "e"%char :: rest /\ read_exponent rest = Some X.
Proof.
  unfold exp_text. eexists. split; [reflexivity|].
  assert (Hpadded : read_digits ("0"%char :: dec (Z.abs X)) = Some (Z.abs X)).
  { destruct (dec_nonneg (Z.abs X) ltac:(lia)) as (Hread & _ & _).
    exact Hread. }
  assert (Hplain : read_digits (dec (Z.abs X)) = Some (Z.abs X))
    by (apply read_digits_dec; lia).
  destruct (Z.ltb_spec X 0); cbn [read_exponent Ascii.eqb Bool.eqb];
    destruct (Z.abs X <? 10); rewrite ?Hpadded, ?Hplain;
    cbn [option_map]; f_equal; lia.
Qed.

Lemma round_half_even_nonneg num den :
  0 <= num -> 0 < den -> 0 <= round_half_even num den.
Proof.
  intros Hnum Hden. unfold round_half_even.
  pose proof (Z.div_pos num den Hnum Hden).
  destruct (2 * (num mod den) <? den); [lia|].
  destruct (den <? 2 * (num mod den)); [lia|].
  destruct (Z.even (num / den)); lia.
Qed.

Lemma round_sig_nonneg P num den :
  0 <= num -> 0 < den -> 0 <= fst (round_sig P num den).
Proof.
  intros Hnum Hden. unfold round_sig, sig_digits.
  set (X := dec_exponent num den).
  assert (Hq0 : 0 <= if 0 <=? P - 1 - X
                     then round_half_even (num * 10 ^ (P - 1 - X)) den
                     else round_half_even num (den * 10 ^ (- (P - 1 - X)))).
  { destruct (Z.leb_spec 0 (P - 1 - X)).
    - apply round_half_even_nonneg; [|assumption].
      apply Z.mul_nonneg_nonneg; [assumption|]. apply Z.lt_le_incl.
      now apply pow10_pos.
    - apply round_half_even_nonneg; [assumption|].
      apply Z.mul_pos_pos; [assumption|]. apply pow10_pos. lia. }
  destruct (10 ^ P <=? _); cbn [fst]; [apply Z.div_pos; lia|exact Hq0].
Qed.

Lemma read_unsigned_fmt_g P num den :
  1 <= P -> 0 <= num -> 0 < den ->
  exists r,
    read_unsigned (fmt_g P num den) = Some r
    /\ Qeq r (scale (fst (round_sig P num den)) (snd (round_sig P num den) - (P - 1)))
    /\ exists ch rest, fmt_g P num den = ch :: rest /\ is_digit ch = true.
Proof.
  intros HP Hnum Hden.
  pose proof (round_sig_nonneg P num den Hnum Hden) as Hq.
  unfold fmt_g. destruct (round_sig P num den) as [q X]. cbn [fst snd] in *.
  destruct (Z.leb_spec (-4) X) as [Hlo|Hlo];
    destruct (Z.ltb_spec X P) as [Hhi|Hhi]; cbn [andb].
  - destruct (read_unsigned_fixed q (P - 1 - X) [] 0) as (r & Hr & Hval);
      [assumption|lia|now left|].
    rewrite app_nil_r in Hr. exists r. split; [exact Hr|]. split.
    + now replace (X - (P - 1)) with (0 - (P - 1 - X)) by lia.
    + apply fixed_text_starts_with_digit; lia.
  - destruct (read_exponent_exp_text X) as (rest & Htext & Hrest).
    destruct (read_unsigned_fixed q (P - 1) (exp_text X) X) as (r & Hr & Hval);
      [assumption|lia|right; eauto|].
    exists r. split; [exact Hr|]. split; [exact Hval|].
    destruct (fixed_text_starts_with_digit q (P - 1)) as (ch & tl & Hfix & Hch);
      [assumption|lia|].
    rewrite Hfix. now exists ch, (tl ++ exp_text X).
  - destruct (read_exponent_exp_text X) as (rest & Htext & Hrest).
    destruct (read_unsigned_fixed q (P - 1) (exp_text X) X) as (r & Hr & Hval);
      [assumption|lia|right; eauto|].
    exists r. split; [exact Hr|]. split; [exact Hval|].
    destruct (fixed_text_starts_with_digit q (P - 1)) as (ch & tl & Hfix & Hch);
      [assumption|lia|].
    rewrite Hfix. now exists ch, (tl ++ exp_text X).
  - lia.
Qed.

(** *** Six significant digits *)










Lemma frac_of_positive m e :
  0 < fst (frac_of m e) /\ 0 < snd (frac_of m e).
Proof.
  unfold frac_of. destruct (Z.leb_spec 0 e); cbn [fst snd].
  - split; [|lia]. apply Z.mul_pos_pos; [lia|apply Z.pow_pos_nonneg; lia].
  - split; [lia|apply Z.pow_pos_nonneg; lia].
Qed.


Lemma read_decimal_fmt_double s m e :
  exists r,
    read_decimal (fmt_double (S754_finite s m e)) = Some r
    /\ Qeq r (six_digit_rounding s m e).
Proof.
  unfold six_digit_rounding, six_digits. cbn [fmt_double].
  pose proof (frac_of_positive m e) as [Hnum Hden].
  destruct (frac_of m e) as [num den]. cbn [fst snd] in *.
  destruct (read_unsigned_fmt_g default_precision num den)
    as (r & Hread & Hval & ch & rest & Htext & Hch);
    [unfold default_precision; lia|lia|assumption|].
  destruct s; cbn [sign_text lit list_ascii_of_string app].
  - exists (Qopp r). cbn [read_decimal Ascii.eqb Bool.eqb].
    rewrite Hread. split; [reflexivity|]. now rewrite Hval.
  - exists r. rewrite Htext in *. cbn [read_decimal].
    destruct (Ascii.eqb_spec ch "-") as [->|_]; [discriminate Hch|].
    split; assumption.
Qed.




(** A double whose value is an integer of at most six digits is written
    as the sign and the decimal numeral of the integer, and re-parses to
    itself. *)
Corollary six_digit_integer_double_reparses :
  forall (s : bool) (m : positive) (e n : Z),
    0 < n < 10 ^ default_precision ->
    Qeq (value_of false m e) (inject_Z n) ->
    fmt_double (S754_finite s m e) = sign_text s ++ dec n
    /\ reparses_to (fmt_double (S754_finite s m e)) s m e.
Proof.
  intros s m e n Hn Hvalue.
  pose proof (frac_of_positive m e) as [Hnum Hden].
  assert (Hv : Qeq (value_of s m e)
                   (if s then Qopp (inject_Z n) else inject_Z n)).
  { unfold value_of in *. destruct (frac_of m e) as [num den].
    destruct s; [now rewrite Hvalue|exact Hvalue]. }
  assert (Htext : fmt_double (S754_finite s m e) = sign_text s ++ dec n).
  { cbn [fmt_double]. unfold value_of in Hvalue.
    destruct (frac_of m e) as [num den]. cbn [fst snd] in *.
    unfold Qeq in Hvalue. cbn [Qnum Qden inject_Z] in Hvalue.
    rewrite Z2Pos.id, Z.mul_1_r in Hvalue by assumption. subst num.
    rewrite fmt_g_integer; [reflexivity|assumption|assumption|].
    unfold default_precision. lia. }
  split; [exact Htext|].
  destruct (read_decimal_fmt_double s m e) as (r & Hread & _).
  exists r. split; [exact Hread|].
  assert (Hr : Qeq r (value_of s m e)).
  { rewrite Hv. rewrite Htext in Hread.
    destruct s; cbn [sign_text lit list_ascii_of_string app read_decimal
                     Ascii.eqb Bool.eqb] in Hread.
    - unfold read_unsigned in Hread.
      destruct (dec_nonneg n ltac:(lia)) as (_ & Hdigits & _).
      rewrite (split_at_none "e"), (split_at_none ".") in Hread
        by now apply digits_without.
      rewrite read_digits_dec in Hread by lia.
      cbn in Hread. injection Hread as <-.
      unfold scale. cbn. now rewrite Z.mul_1_r, Z.add_0_r, Z.mul_1_r.
    - destruct (dec_nonneg n ltac:(lia)) as (_ & Hdigits & Hne).
      pose proof (read_digits_dec n ltac:(lia)) as Hint.
      assert (Hun : read_unsigned (dec n) = Some (scale (n * 10 ^ 0 + 0) (0 - 0))).
      { unfold read_unsigned.
        rewrite (split_at_none "e"), (split_at_none ".")
          by now apply digits_without.
        now rewrite Hint. }
      destruct (dec n) as [|ch rest]; [contradiction|].
      cbn [forallb] in Hdigits. apply andb_prop in Hdigits as [Hch _].
      cbn [read_decimal] in Hread.
      destruct (Ascii.eqb_spec ch "-") as [->|_]; [discriminate Hch|].
      rewrite Hun in Hread. injection Hread as <-.
      unfold scale. cbn. now rewrite Z.mul_1_r, Z.add_0_r, Z.mul_1_r. }
  intros s' m' e' _. rewrite Hr.
  setoid_replace (value_of s m e - value_of s m e)%Q with 0%Q by ring.
  apply Qabs_nonneg.
Qed.

Example six_digit_integer_double_reparses_example :
  fmt_double (S754_finite true (42 * 2 ^ 47)%positive (-47)) = lit "-42"
  /\ reparses_to (lit "-42") true (42 * 2 ^ 47)%positive (-47)
  /\ binary64 (42 * 2 ^ 47)%positive (-47) = true.
Proof.
  destruct (six_digit_integer_double_reparses true (42 * 2 ^ 47)%positive (-47) 42)
    as [Htext Hreparses].
  - split; reflexivity.
  - reflexivity.
  - split; [exact Htext|]. split; [|reflexivity].
    rewrite Htext in Hreparses. exact Hreparses.
Qed.

(** The zeros are written with their sign and one digit. *)
Remark zero_double_text s : fmt_double (S754_zero s) = sign_text s ++ lit "0".
Proof. reflexivity. Qed.

(** * Further properties of the logger *)

(** ** Which values can be put *)

Lemma c_str_defined mem :
  (exists s, c_str mem = Some s)
  <-> existsb (fun ch => (ch =? NUL)%char) mem = true.
Proof.
  induction mem as [|ch mem IH]; simpl.
  - split; [intros [s Hs]; discriminate Hs|discriminate].
  - destruct (Ascii.eqb ch NUL); simpl.
    + split; [reflexivity|]. intros _. now exists [].
    + rewrite <- IH. split.
      * intros [s Hs]. destruct (c_str mem) as [s'|]; [now exists s'|discriminate Hs].
      * intros [s Hs]. rewrite Hs. simpl. now eexists.
Qed.

Lemma encode_all_defined vec :
  (exists parts, encode_all vec = Some parts)
  <-> Forall (fun x => exists s, encode x = Some s) vec.
Proof.
  induction vec as [|x rest IH]; simpl.
  - split; [constructor|]. intros _. now exists [].
  - split.
    + intros [parts Hparts].
      destruct (encode x) as [s|] eqn:Hx; [|discriminate Hparts].
      destruct (encode_all rest) as [ps|] eqn:Hrest; [|discriminate Hparts].
      constructor; [now exists s|]. apply IH. now exists ps.
    + intros H. inversion H as [|? ? [s Hs] Hrest]; subst.
      apply IH in Hrest as [ps Hps]. rewrite Hs, Hps. now eexists.
Qed.

(** X1. A value can be put, whatever was collected before, exactly when
    each C string in it, at any depth of vectors, holds a terminating NUL;
    every other value is put without condition. *)
Theorem put_is_defined_on_terminated_values :
  forall (t : Value),
    ((exists s, encode t = Some s) <-> well_terminated t = true)
    /\ forall lg, (exists lg', PutDecay t lg = Some lg')
                  <-> well_terminated t = true.
Proof.
  assert (Henc : forall t, (exists s, encode t = Some s) <-> well_terminated t = true).
  { induction t as [b|z|z|z|z|d|mem|arr|str|vec IH] using Value_nested_ind;
      try (split; [reflexivity|intros _; unfold encode; simpl; now eexists]).
    - unfold encode. cbn [PutDecay well_terminated].
      rewrite Put_cstr_c_str, <- c_str_defined.
      destruct (c_str mem) as [s|]; simpl; split; intros [x Hx];
        try discriminate Hx; now eexists.
    - unfold encode. cbn [PutDecay well_terminated].
      rewrite Put_cstr_c_str, <- c_str_defined.
      destruct (c_str arr) as [s|]; simpl; split; intros [x Hx];
        try discriminate Hx; now eexists.
    - cbn [well_terminated]. rewrite forallb_forall.
      assert (Hall : (exists parts, encode_all vec = Some parts)
                     <-> forall x, In x vec -> well_terminated x = true).
      { rewrite encode_all_defined, Forall_forall.
        rewrite Forall_forall in IH.
        split; intros H x Hx; apply (IH x Hx); now apply H. }
      rewrite <- Hall. unfold encode. cbn [PutDecay].
      rewrite Put_vector_appends
        by (apply Forall_forall; intros x _; apply PutDecay_appends).
      destruct (encode_all vec) as [parts|]; simpl; split; intros [x Hx];
        try discriminate Hx; now eexists. }
  intros t. split; [apply Henc|].
  intros lg. rewrite <- Henc, PutDecay_appends.
  destruct (encode t) as [s|]; simpl; split; intros [x Hx];
    try discriminate Hx; now eexists.
Qed.

(** ** What a put changes *)

(** X2. Putting a value never changes the count of fields and never
    touches the text collected so far: it adds the text of the value at
    the end, the same text whatever was collected. *)
Theorem put_only_appends :
  forall (t : Value) (lg lg' : JsonLogger),
    PutDecay t lg = Some lg' ->
    elements_ lg' = elements_ lg
    /\ exists s, encode t = Some s /\ oss_ lg' = oss_ lg ++ s.
Proof.
  intros t lg lg' Hput. rewrite PutDecay_appends in Hput.
  destruct (encode t) as [s|]; [|discriminate Hput].
  injection Hput as <-. split; [reflexivity|]. now exists s.
Qed.

Lemma put_only_appends_witness :
  let lg := mkJsonLogger (lit "k:") 5 in
  exists lg',
    PutDecay (VVector [VBool true; VVector [VInt (-3)]]) lg = Some lg'
    /\ elements_ lg' = 5
    /\ oss_ lg' = lit "k:[true,[-3]]".
Proof.
  eexists. split; [reflexivity|].
  destruct (put_only_appends (VVector [VBool true; VVector [VInt (-3)]])
              (mkJsonLogger (lit "k:") 5) _ eq_refl) as (Hcount & s & Hs & Htext).
  split; [exact Hcount|]. reflexivity.
Defined.

(** ** Escaping loses nothing *)

Lemma unescape_escaped ch rest :
  unescape (escaped ch ++ rest) = ch :: unescape rest.
Proof.
  unfold escaped, escaping_table, table_lookup.
  by_table_row ch ltac:(reflexivity).
  cbn [app unescape].
  match goal with
  | Hne : ch <> BACKSLASH |- _ =>
      now rewrite (proj2 (Ascii.eqb_neq ch BACKSLASH) Hne)
  end.
Qed.

Lemma unescape_flat_map_escaped s rest :
  unescape (flat_map escaped s ++ rest) = s ++ unescape rest.
Proof.
  induction s as [|ch s IH]; [reflexivity|].
  cbn [flat_map]. now rewrite <- app_assoc, unescape_escaped, IH.
Qed.

(** X3. Escaping loses nothing: two strings with the same encoded text
    are the same string, control characters and bytes outside ASCII
    included; and so are two C strings. *)
Theorem string_encoding_is_injective :
  forall (s1 s2 : text),
    (encode (VString s1) = encode (VString s2) -> s1 = s2)
    /\ (~ In NUL s1 -> ~ In NUL s2 ->
        encode (VCStr (s1 ++ [NUL])) = encode (VCStr (s2 ++ [NUL])) -> s1 = s2).
Proof.
  assert (Hq : forall s1 s2, quoted s1 = quoted s2 -> s1 = s2).
  { unfold quoted. intros s1 s2 [= H].
    apply (f_equal unescape) in H.
    rewrite !unescape_flat_map_escaped in H.
    now apply app_inv_tail in H. }
  intros s1 s2. split.
  - unfold encode. cbn [PutDecay]. rewrite !Put_string_quoted.
    cbn [option_map oss_write oss_ app]. intros [= H]. apply Hq.
    unfold quoted. now f_equal.
  - intros H1 H2. unfold encode. cbn [PutDecay].
    rewrite !Put_cstr_quoted by assumption.
    cbn [option_map oss_write oss_ app]. intros [= H]. apply Hq.
    unfold quoted. now f_equal.
Qed.

Lemma string_encoding_is_injective_witness :
  encode (VString [LF]) <> encode (VString (lit "\n"))
  /\ encode (VCStr (c_literal "a")) <> encode (VCStr (c_literal "b")).
Proof.
  destruct (string_encoding_is_injective [LF] (lit "\n")) as [Hstr _].
  destruct (string_encoding_is_injective (lit "a") (lit "b")) as [_ Hcstr].
  split.
  - intros H. apply Hstr in H. discriminate H.
  - intros H. apply Hcstr in H; [discriminate H| |];
      simpl; intros [E|[]]; discriminate E.
Defined.

(** ** One logger does not touch another *)

Lemma keeps_ret {A : Type} a (x : A) : keeps_other_loggers a (ret x).
Proof. intros w a' _. reflexivity. Qed.

Lemma keeps_bind {A B : Type} a (c : M A) (k : A -> M B) :
  keeps_other_loggers a c -> (forall x, keeps_other_loggers a (k x)) ->
  keeps_other_loggers a (bind c k).
Proof.
  intros Hc Hk w. unfold bind. specialize (Hc w).
  destruct (c w) as [x w1|w1|]; [|assumption|exact I].
  specialize (Hk x w1). destruct (k x w1) as [y w2|w2|]; [| |exact I];
    intros a' Ha'; rewrite Hk, Hc by assumption; reflexivity.
Qed.

Lemma keeps_on_logger a f : keeps_other_loggers a (on_logger a f).
Proof.
  intros w. unfold on_logger. destruct (f (loggers w a)); [|exact I].
  intros a' Ha'. now apply loggers_set_logger_other.
Qed.

Lemma keeps_Output a this : keeps_other_loggers a (Output this).
Proof. intros w a' _. reflexivity. Qed.

Lemma keeps_JsonLine_shl line t :
  keeps_other_loggers (logger_ line) (JsonLine_shl line t).
Proof.
  unfold JsonLine_shl. apply keeps_bind; [apply keeps_on_logger|].
  intros _. apply keeps_ret.
Qed.

Lemma keeps_JsonLine_dtor line :
  keeps_other_loggers (logger_ line) (JsonLine_dtor line).
Proof.
  intros w. unfold JsonLine_dtor, bind, assert_.
  destruct (elements_ (loggers w (logger_ line)) mod 2 =? 0);
    intros a' _; reflexivity.
Qed.

Lemma keeps_JsonLogger_line this now :
  keeps_other_loggers this (JsonLogger_line this now).
Proof.
  intros w.
  destruct (JsonLogger_line_run this now w) as (w1 & Hrun & _ & _ & Hframe).
  rewrite Hrun. exact Hframe.
Qed.

Lemma keeps_append_pairs out pairs :
  keeps_other_loggers (logger_ out) (append_pairs out pairs).
Proof.
  induction pairs as [|[key value] rest IH]; cbn [append_pairs];
    [apply keeps_ret|].
  apply keeps_bind; [apply keeps_JsonLine_shl|intros _].
  apply keeps_bind; [apply keeps_JsonLine_shl|intros _]. exact IH.
Qed.

Lemma keeps_append_values out vals :
  keeps_other_loggers (logger_ out) (append_values out vals).
Proof.
  induction vals as [|t rest IH]; cbn [append_values]; [apply keeps_ret|].
  apply keeps_bind; [apply keeps_JsonLine_shl|intros _]. exact IH.
Qed.

Lemma keeps_after_line {A : Type} this now (k : JsonLine -> M A) :
  keeps_other_loggers this (k (JsonLine_ctor this)) ->
  keeps_other_loggers this (bind (JsonLogger_line this now) k).
Proof.
  intros Hk w. unfold bind.
  destruct (JsonLogger_line_run this now w) as (w1 & Hrun & _ & _ & Hframe).
  rewrite Hrun. specialize (Hk w1).
  destruct (k (JsonLine_ctor this) w1) as [x w2|w2|]; [| |exact I];
    intros a' Ha'; rewrite Hk, Hframe by assumption; reflexivity.
Qed.

(** X4. Whatever a record is made of, writing it on one logger leaves the
    collected text and the count of fields of every other logger as they
    were, whether the call returns or stops at the assertion; so does each
    single append. *)
Theorem record_keeps_other_loggers :
  forall (this : addr) (now : Z),
    (forall pairs, keeps_other_loggers this (write_record this now pairs))
    /\ (forall vals, keeps_other_loggers this (write_values this now vals))
    /\ (forall t, keeps_other_loggers this (JsonLine_shl (JsonLine_ctor this) t)).
Proof.
  intros this now. split; [|split].
  - intros pairs. unfold write_record. apply keeps_after_line.
    apply keeps_bind; [apply (keeps_append_pairs (JsonLine_ctor this))|].
    intros _. apply (keeps_JsonLine_dtor (JsonLine_ctor this)).
  - intros vals. unfold write_values. apply keeps_after_line.
    apply keeps_bind; [apply (keeps_append_values (JsonLine_ctor this))|].
    intros _. apply (keeps_JsonLine_dtor (JsonLine_ctor this)).
  - intros t. apply (keeps_JsonLine_shl (JsonLine_ctor this)).
Qed.

(** ** Whole records, one after another and one inside another *)

Lemma write_record_run this now pairs kvs w :
  encoded_pairs pairs kvs ->
  2 + 2 * Z.of_nat (List.length pairs) < SIZE_MAX_plus_1 ->
  exists w',
    write_record this now pairs w = Returns tt w'
    /\ cout w' = ostream_write (record_line (body_text now kvs)) (cout w)
    /\ loggers w' this
       = mkJsonLogger (body_text now kvs) (2 + 2 * Z.of_nat (List.length pairs)).
Proof.
  intros Hpairs Hmax. unfold write_record, bind.
  destruct (JsonLogger_line_run this now w) as (w1 & Hline & Hlg1 & Hcout1 & _).
  rewrite Hline.
  destruct (append_pairs_run (JsonLine_ctor this) pairs kvs Hpairs w1)
    as (w2 & Happ & Hlg2 & Hcout2);
    cbn [logger_ JsonLine_ctor]; rewrite ?Hlg1; cbn [elements_];
    [lia|reflexivity|exact Hmax|].
  rewrite Happ. cbn [logger_ JsonLine_ctor] in Hlg2.
  rewrite Hlg1 in Hlg2. cbn [oss_ elements_] in Hlg2.
  assert (Hsame : body_text now [] ++ pairs_text kvs = body_text now kvs).
  { unfold body_text. cbn [pairs_text flat_map].
    now rewrite app_nil_r, <- !app_assoc. }
  rewrite Hsame in Hlg2.
  rewrite JsonLine_dtor_even
    by (cbn [logger_ JsonLine_ctor]; rewrite Hlg2; cbn [elements_];
        now rewrite Z.even_add, Z.even_mul).
  cbn [logger_ JsonLine_ctor]. rewrite Output_run, Hlg2. cbn [oss_].
  eexists. split; [reflexivity|]. cbn [cout set_cout loggers].
  split; [now rewrite Hcout2, Hcout1|exact Hlg2].
Qed.

(** X5. Two records written one after the other on the same logger come
    out as two lines, the second holding its own timestamp and pairs and
    nothing of the first: [line()] starts from an empty collector. *)
Theorem records_in_sequence_are_independent :
  forall (this : addr) (now1 now2 : Z) (pairs1 pairs2 : list (Value * Value))
         (kvs1 kvs2 : list (text * text)) (w : World),
    encoded_pairs pairs1 kvs1 ->
    encoded_pairs pairs2 kvs2 ->
    2 + 2 * Z.of_nat (List.length pairs1) < SIZE_MAX_plus_1 ->
    2 + 2 * Z.of_nat (List.length pairs2) < SIZE_MAX_plus_1 ->
    badbit (cout w) = false ->
    (List.length (record_line (body_text now1 kvs1))
     + List.length (record_line (body_text now2 kvs2)) <= room (cout w))%nat ->
    exists w',
      (write_record this now1 pairs1 ;; write_record this now2 pairs2) w
      = Returns tt w'
      /\ sent (cout w')
         = sent (cout w) ++ record_line (body_text now1 kvs1)
           ++ record_line (body_text now2 kvs2)
      /\ badbit (cout w') = false.
Proof.
  intros this now1 now2 pairs1 pairs2 kvs1 kvs2 w H1 H2 Hmax1 Hmax2 Hgood Hroom.
  unfold bind.
  destruct (write_record_run this now1 pairs1 kvs1 w H1 Hmax1)
    as (w1 & Hrun1 & Hcout1 & _).
  rewrite Hrun1.
  destruct (write_record_run this now2 pairs2 kvs2 w1 H2 Hmax2)
    as (w2 & Hrun2 & Hcout2 & _).
  exists w2. split; [exact Hrun2|].
  rewrite Hcout2, Hcout1, <- ostream_write_app.
  rewrite ostream_write_good by assumption.
  rewrite length_app.
  apply Nat.leb_le in Hroom. rewrite Hroom. cbn [sent badbit].
  split; reflexivity.
Qed.

Lemma records_in_sequence_are_independent_witness :
  let w := mkWorld (fun _ => mkJsonLogger [] 0) (mkOstream [] false 64) in
  exists w',
    (write_record 0%nat 1 [(VCharArray (c_literal "a"), VInt 5)] ;;
     write_record 0%nat 2 [(VCharArray (c_literal "b"), VBool true)]) w
    = Returns tt w'
    /\ sent (cout w')
       = lit "{" ++ [DQUOTE] ++ lit "ts" ++ [DQUOTE] ++ lit ":1,"
         ++ [DQUOTE] ++ lit "a" ++ [DQUOTE] ++ lit ":5}" ++ [LF]
         ++ lit "{" ++ [DQUOTE] ++ lit "ts" ++ [DQUOTE] ++ lit ":2,"
         ++ [DQUOTE] ++ lit "b" ++ [DQUOTE] ++ lit ":true}" ++ [LF].
Proof.
  intros w.
  destruct (records_in_sequence_are_independent
              0%nat 1 2 [(VCharArray (c_literal "a"), VInt 5)]
              [(VCharArray (c_literal "b"), VBool true)]
              [([DQUOTE] ++ lit "a" ++ [DQUOTE], lit "5")]
              [([DQUOTE] ++ lit "b" ++ [DQUOTE], lit "true")] w)
    as (w' & Hrun & Hsent & _).
  - repeat constructor.
  - repeat constructor.
  - reflexivity.
  - reflexivity.
  - reflexivity.
  - vm_compute. repeat constructor.
  - exists w'. split; [exact Hrun|]. rewrite Hsent. reflexivity.
Defined.

(** X6. Once [std::cout] has its [badbit] set every later record is
    dropped: the call returns normally, nothing more reaches the sink, and
    the [badbit] stays set. *)
Theorem records_are_dropped_after_a_failure :
  forall (this : addr) (now : Z) (pairs : list (Value * Value))
         (kvs : list (text * text)) (w : World),
    encoded_pairs pairs kvs ->
    2 + 2 * Z.of_nat (List.length pairs) < SIZE_MAX_plus_1 ->
    badbit (cout w) = true ->
    exists w', write_record this now pairs w = Returns tt w'
               /\ sent (cout w') = sent (cout w)
               /\ badbit (cout w') = true.
Proof.
  intros this now pairs kvs w Hpairs Hmax Hbad.
  destruct (write_record_run this now pairs kvs w Hpairs Hmax)
    as (w' & Hrun & Hcout & _).
  exists w'. split; [exact Hrun|].
  rewrite Hcout, ostream_write_bad by exact Hbad. now split.
Qed.

Lemma records_are_dropped_after_a_failure_witness :
  let w := mkWorld (fun _ => mkJsonLogger [] 0) (mkOstream (lit "x") true 64) in
  exists w',
    write_record 0%nat 1 [(VCharArray (c_literal "a"), VInt 5)] w = Returns tt w'
    /\ sent (cout w') = lit "x"
    /\ badbit (cout w') = true.
Proof.
  intros w.
  apply (records_are_dropped_after_a_failure
           0%nat 1 [(VCharArray (c_literal "a"), VInt 5)]
           [([DQUOTE] ++ lit "a" ++ [DQUOTE], lit "5")] w).
  - repeat constructor.
  - reflexivity.
  - reflexivity.
Defined.

Lemma append_pairs_frame out pairs w w' :
  append_pairs out pairs w = Returns tt w' ->
  forall a, a <> logger_ out -> loggers w' a = loggers w a.
Proof.
  intros Hrun. pose proof (keeps_append_pairs out pairs w) as H.
  now rewrite Hrun in H.
Qed.

Lemma flush_line this w :
  Z.even (elements_ (loggers w this)) = true ->
  exists w',
    JsonLine_dtor (JsonLine_ctor this) w = Returns tt w'
    /\ cout w' = ostream_write (record_line (oss_ (loggers w this))) (cout w)
    /\ loggers w' = loggers w.
Proof.
  intros Heven. rewrite JsonLine_dtor_even by exact Heven.
  cbn [logger_ JsonLine_ctor]. rewrite Output_run.
  eexists. split; [reflexivity|]. split; reflexivity.
Qed.

Lemma started_line_run this now pairs kvs w :
  encoded_pairs pairs kvs ->
  2 + 2 * Z.of_nat (List.length pairs) < SIZE_MAX_plus_1 ->
  exists w',
    (a <- JsonLogger_line this now ;; append_pairs a pairs ;; ret a) w
    = Returns (JsonLine_ctor this) w'
    /\ loggers w' this
       = mkJsonLogger (body_text now kvs) (2 + 2 * Z.of_nat (List.length pairs))
    /\ cout w' = cout w
    /\ forall a, a <> this -> loggers w' a = loggers w a.
Proof.
  intros Hpairs Hmax. unfold bind.
  destruct (JsonLogger_line_run this now w) as (w1 & Hline & Hlg1 & Hcout1 & Hframe1).
  rewrite Hline.
  destruct (append_pairs_run (JsonLine_ctor this) pairs kvs Hpairs w1)
    as (w2 & Happ & Hlg2 & Hcout2);
    cbn [logger_ JsonLine_ctor]; rewrite ?Hlg1; cbn [elements_];
    [lia|reflexivity|exact Hmax|].
  rewrite Happ. cbn [logger_ JsonLine_ctor] in Hlg2.
  rewrite Hlg1 in Hlg2. cbn [oss_ elements_] in Hlg2.
  assert (Hsame : body_text now [] ++ pairs_text kvs = body_text now kvs).
  { unfold body_text. cbn [pairs_text flat_map].
    now rewrite app_nil_r, <- !app_assoc. }
  rewrite Hsame in Hlg2.
  exists w2. split; [reflexivity|]. split; [exact Hlg2|].
  split; [now rewrite Hcout2|].
  intros a Ha. rewrite (append_pairs_frame _ _ _ _ Happ) by exact Ha.
  now apply Hframe1.
Qed.

(** X7. Two lines of one logger alive at the same time share its
    collector: starting the second line throws away what the first had
    collected, and at the end both destructors write the record of the
    second line. The record of the first line is never written, and
    nothing reports it. *)
Theorem overlapping_lines_lose_the_first_record :
  forall (this : addr) (now1 now2 : Z) (pairs1 pairs2 : list (Value * Value))
         (kvs1 kvs2 : list (text * text)) (w : World),
    encoded_pairs pairs1 kvs1 ->
    encoded_pairs pairs2 kvs2 ->
    2 + 2 * Z.of_nat (List.length pairs1) < SIZE_MAX_plus_1 ->
    2 + 2 * Z.of_nat (List.length pairs2) < SIZE_MAX_plus_1 ->
    badbit (cout w) = false ->
    (2 * List.length (record_line (body_text now2 kvs2)) <= room (cout w))%nat ->
    exists w',
      overlapping_lines this now1 now2 pairs1 pairs2 w = Returns tt w'
      /\ sent (cout w')
         = sent (cout w) ++ record_line (body_text now2 kvs2)
           ++ record_line (body_text now2 kvs2).
Proof.
  intros this now1 now2 pairs1 pairs2 kvs1 kvs2 w H1 H2 Hmax1 Hmax2 Hgood Hroom.
  destruct (started_line_run this now1 pairs1 kvs1 w H1 Hmax1)
    as (w1 & Hrun1 & _ & Hcout1 & _).
  destruct (started_line_run this now2 pairs2 kvs2 w1 H2 Hmax2)
    as (w2 & Hrun2 & Hlg2 & Hcout2 & _).
  assert (Heven : forall w0, loggers w0 = loggers w2 ->
                             Z.even (elements_ (loggers w0 this)) = true).
  { intros w0 ->. rewrite Hlg2. cbn [elements_].
    now rewrite Z.even_add, Z.even_mul. }
  destruct (flush_line this w2 (Heven w2 eq_refl)) as (w3 & Hb & Hcout3 & Hlg3).
  destruct (flush_line this w3 (Heven w3 Hlg3)) as (w4 & Ha & Hcout4 & Hlg4).
  exists w4. split.
  - unfold overlapping_lines. unfold bind in *.
    destruct (JsonLogger_line this now1 w) as [a wa| |]; try discriminate Hrun1.
    destruct (append_pairs a pairs1 wa) as [[] wb| |]; try discriminate Hrun1.
    injection Hrun1 as -> ->.
    destruct (JsonLogger_line this now2 w1) as [b wc| |]; try discriminate Hrun2.
    destruct (append_pairs b pairs2 wc) as [[] wd| |]; try discriminate Hrun2.
    injection Hrun2 as -> ->.
    rewrite Hb. exact Ha.
  - rewrite Hcout4, Hcout3, Hlg3, Hlg2, Hcout2, Hcout1. cbn [oss_].
    rewrite <- ostream_write_app, ostream_write_good by assumption.
    rewrite length_app.
    replace (List.length (record_line (body_text now2 kvs2))
             + List.length (record_line (body_text now2 kvs2)))%nat
      with (2 * List.length (record_line (body_text now2 kvs2)))%nat by lia.
    apply Nat.leb_le in Hroom. now rewrite Hroom.
Qed.

Lemma overlapping_lines_lose_the_first_record_witness :
  let w := mkWorld (fun _ => mkJsonLogger [] 0) (mkOstream [] false 64) in
  exists w',
    overlapping_lines 0%nat 1 2 [(VCharArray (c_literal "a"), VInt 5)]
      [(VCharArray (c_literal "b"), VInt 6)] w
    = Returns tt w'
    /\ sent (cout w')
       = lit "{" ++ [DQUOTE] ++ lit "ts" ++ [DQUOTE] ++ lit ":2,"
         ++ [DQUOTE] ++ lit "b" ++ [DQUOTE] ++ lit ":6}" ++ [LF]
         ++ lit "{" ++ [DQUOTE] ++ lit "ts" ++ [DQUOTE] ++ lit ":2,"
         ++ [DQUOTE] ++ lit "b" ++ [DQUOTE] ++ lit ":6}" ++ [LF].
Proof.
  intros w.
  destruct (overlapping_lines_lose_the_first_record
              0%nat 1 2 [(VCharArray (c_literal "a"), VInt 5)]
              [(VCharArray (c_literal "b"), VInt 6)]
              [([DQUOTE] ++ lit "a" ++ [DQUOTE], lit "5")]
              [([DQUOTE] ++ lit "b" ++ [DQUOTE], lit "6")] w)
    as (w' & Hrun & Hsent).
  - repeat constructor.
  - repeat constructor.
  - reflexivity.
  - reflexivity.
  - reflexivity.
  - vm_compute. repeat constructor.
  - exists w'. split; [exact Hrun|]. rewrite Hsent. reflexivity.
Defined.

Lemma append_interleaved_run this1 this2 schedule :
  this1 <> this2 ->
  forall texts1 texts2 w,
    Forall2 (fun t s => encode t = Some s) (appended_to true schedule) texts1 ->
    Forall2 (fun t s => encode t = Some s) (appended_to false schedule) texts2 ->
    0 <= elements_ (loggers w this1) ->
    0 <= elements_ (loggers w this2) ->
    elements_ (loggers w this1) + Z.of_nat (List.length texts1) < SIZE_MAX_plus_1 ->
    elements_ (loggers w this2) + Z.of_nat (List.length texts2) < SIZE_MAX_plus_1 ->
    exists w',
      append_interleaved (JsonLine_ctor this1) (JsonLine_ctor this2) schedule w
      = Returns tt w'
      /\ loggers w' this1
         = mkJsonLogger
             (oss_ (loggers w this1)
              ++ fields_text (elements_ (loggers w this1)) texts1)
             (elements_ (loggers w this1) + Z.of_nat (List.length texts1))
      /\ loggers w' this2
         = mkJsonLogger
             (oss_ (loggers w this2)
              ++ fields_text (elements_ (loggers w this2)) texts2)
             (elements_ (loggers w this2) + Z.of_nat (List.length texts2))
      /\ cout w' = cout w.
Proof.
  intros Hne.
  assert (Hne' : this2 <> this1) by congruence.
  induction schedule as [|[to_a t] rest IH];
    intros texts1 texts2 w H1 H2 Hpos1 Hpos2 Hmax1 Hmax2.
  - inversion H1; subst. inversion H2; subst. exists w.
    cbn [append_interleaved fields_text List.length]. rewrite !app_nil_r, !Z.add_0_r.
    split; [reflexivity|].
    split; [now destruct (loggers w this1)|].
    split; [now destruct (loggers w this2)|reflexivity].
  - cbn [append_interleaved]. unfold bind at 1. rewrite JsonLine_shl_run.
    destruct to_a; cbn [logger_ JsonLine_ctor].
    + change (appended_to true ((true, t) :: rest))
        with (t :: appended_to true rest) in H1.
      change (appended_to false ((true, t) :: rest))
        with (appended_to false rest) in H2.
      inversion H1 as [|t' s vals texts1' Hs H1' E1 E2]; subst.
      cbn [List.length] in Hmax1. rewrite Nat2Z.inj_succ in Hmax1.
      rewrite (shl_logger_text _ _ _ Hs) by exact Hpos1.
      rewrite Z.mod_small by lia.
      match goal with
      | |- context [append_interleaved _ _ rest ?w1] =>
          destruct (IH texts1' texts2 w1) as (w' & Hrun & Hlg1 & Hlg2 & Hcout)
      end;
        rewrite ?loggers_set_logger, ?(loggers_set_logger_other _ _ _ _ Hne');
        cbn [elements_ oss_]; try assumption; try lia.
      exists w'. split; [exact Hrun|].
      rewrite loggers_set_logger in Hlg1.
      rewrite (loggers_set_logger_other _ _ _ _ Hne') in Hlg2.
      cbn [elements_ oss_] in Hlg1.
      split; [|split; [exact Hlg2|exact Hcout]].
      rewrite Hlg1. cbn [fields_text List.length]. rewrite Nat2Z.inj_succ.
      f_equal; [now rewrite <- !app_assoc|lia].
    + change (appended_to true ((false, t) :: rest))
        with (appended_to true rest) in H1.
      change (appended_to false ((false, t) :: rest))
        with (t :: appended_to false rest) in H2.
      inversion H2 as [|t' s vals texts2' Hs H2' E1 E2]; subst.
      cbn [List.length] in Hmax2. rewrite Nat2Z.inj_succ in Hmax2.
      rewrite (shl_logger_text _ _ _ Hs) by exact Hpos2.
      rewrite Z.mod_small by lia.
      match goal with
      | |- context [append_interleaved _ _ rest ?w1] =>
          destruct (IH texts1 texts2' w1) as (w' & Hrun & Hlg1 & Hlg2 & Hcout)
      end;
        rewrite ?loggers_set_logger, ?(loggers_set_logger_other _ _ _ _ Hne);
        cbn [elements_ oss_]; try assumption; try lia.
      exists w'. split; [exact Hrun|].
      rewrite loggers_set_logger in Hlg2.
      rewrite (loggers_set_logger_other _ _ _ _ Hne) in Hlg1.
      cbn [elements_ oss_] in Hlg2.
      split; [exact Hlg1|]. split; [|exact Hcout].
      rewrite Hlg2. cbn [fields_text List.length]. rewrite Nat2Z.inj_succ.
      f_equal; [now rewrite <- !app_assoc|lia].
Qed.

(** X8. Lines of two different loggers do not disturb each other, however
    their appends interleave: whatever the order in which the values go to
    the one line and to the other, each destructor writes the record of its
    own line, whole, with the values of that line in their order, and the
    records come out in the order in which the destructors run. *)
Theorem lines_of_two_loggers_are_independent :
  forall (this1 this2 : addr) (now1 now2 : Z)
         (schedule : list (bool * Value))
         (texts1 texts2 : list text) (w : World),
    this1 <> this2 ->
    Forall2 (fun t s => encode t = Some s) (appended_to true schedule) texts1 ->
    Forall2 (fun t s => encode t = Some s) (appended_to false schedule) texts2 ->
    Z.even (Z.of_nat (List.length texts1)) = true ->
    Z.even (Z.of_nat (List.length texts2)) = true ->
    2 + Z.of_nat (List.length texts1) < SIZE_MAX_plus_1 ->
    2 + Z.of_nat (List.length texts2) < SIZE_MAX_plus_1 ->
    badbit (cout w) = false ->
    (List.length (record_line (body_text now2 [] ++ fields_text 2 texts2))
     + List.length (record_line (body_text now1 [] ++ fields_text 2 texts1))
     <= room (cout w))%nat ->
    exists w',
      lines_of_two_loggers this1 this2 now1 now2 schedule w = Returns tt w'
      /\ sent (cout w')
         = sent (cout w)
           ++ record_line (body_text now2 [] ++ fields_text 2 texts2)
           ++ record_line (body_text now1 [] ++ fields_text 2 texts1).
Proof.
  intros this1 this2 now1 now2 schedule texts1 texts2 w
         Hne H1 H2 Heven1 Heven2 Hmax1 Hmax2 Hgood Hroom.
  unfold lines_of_two_loggers, bind.
  destruct (JsonLogger_line_run this1 now1 w) as (wa & Hla & Hlga & Hca & Hfa).
  rewrite Hla.
  destruct (JsonLogger_line_run this2 now2 wa) as (wb & Hlb & Hlgb & Hcb & Hfb).
  rewrite Hlb.
  assert (Hlga' : loggers wb this1 = mkJsonLogger (body_text now1 []) 2).
  { rewrite (Hfb this1 Hne). exact Hlga. }
  destruct (append_interleaved_run this1 this2 schedule Hne texts1 texts2 wb H1 H2)
    as (wc & Happ & Hlg1 & Hlg2 & Hcc);
    rewrite ?Hlga', ?Hlgb; cbn [elements_]; try lia.
  rewrite Happ. rewrite Hlga' in Hlg1. rewrite Hlgb in Hlg2.
  cbn [oss_ elements_] in Hlg1, Hlg2.
  destruct (flush_line this2 wc) as (wd & Hdb & Hcd & Hlgd).
  { rewrite Hlg2. cbn [elements_]. now rewrite Z.even_add, Heven2. }
  rewrite Hdb.
  destruct (flush_line this1 wd) as (we & Hda & Hce & Hlge).
  { rewrite Hlgd, Hlg1. cbn [elements_]. now rewrite Z.even_add, Heven1. }
  exists we. split; [exact Hda|].
  rewrite Hce, Hcd, Hlgd, Hlg1, Hlg2, Hcc, Hcb, Hca. cbn [oss_].
  rewrite <- ostream_write_app, ostream_write_good by assumption.
  rewrite length_app. apply Nat.leb_le in Hroom. now rewrite Hroom.
Qed.

Lemma lines_of_two_loggers_are_independent_witness :
  let w := mkWorld (fun _ => mkJsonLogger [] 0) (mkOstream [] false 64) in
  exists w',
    lines_of_two_loggers 0%nat 1%nat 1 2
      [(true, VCharArray (c_literal "a")); (false, VCharArray (c_literal "b"));
       (false, VInt 6); (true, VInt 5)] w
    = Returns tt w'
    /\ sent (cout w')
       = lit "{" ++ [DQUOTE] ++ lit "ts" ++ [DQUOTE] ++ lit ":2,"
         ++ [DQUOTE] ++ lit "b" ++ [DQUOTE] ++ lit ":6}" ++ [LF]
         ++ lit "{" ++ [DQUOTE] ++ lit "ts" ++ [DQUOTE] ++ lit ":1,"
         ++ [DQUOTE] ++ lit "a" ++ [DQUOTE] ++ lit ":5}" ++ [LF].
Proof.
  intros w.
  destruct (lines_of_two_loggers_are_independent
              0%nat 1%nat 1 2
              [(true, VCharArray (c_literal "a")); (false, VCharArray (c_literal "b"));
               (false, VInt 6); (true, VInt 5)]
              [[DQUOTE] ++ lit "a" ++ [DQUOTE]; lit "5"]
              [[DQUOTE] ++ lit "b" ++ [DQUOTE]; lit "6"] w)
    as (w' & Hrun & Hsent).
  - discriminate.
  - repeat constructor.
  - repeat constructor.
  - reflexivity.
  - reflexivity.
  - reflexivity.
  - reflexivity.
  - reflexivity.
  - vm_compute. repeat constructor.
  - exists w'. split; [exact Hrun|]. rewrite Hsent. reflexivity.
Defined.

(** ** Appends that do not come in pairs *)

Lemma append_values_run (out : JsonLine) vals texts :
  Forall2 (fun t s => encode t = Some s) vals texts ->
  forall w,
    0 <= elements_ (loggers w (logger_ out)) ->
    elements_ (loggers w (logger_ out)) + Z.of_nat (List.length vals)
      < SIZE_MAX_plus_1 ->
    exists w',
      append_values out vals w = Returns tt w'
      /\ loggers w' (logger_ out)
         = mkJsonLogger
             (oss_ (loggers w (logger_ out))
              ++ fields_text (elements_ (loggers w (logger_ out))) texts)
             (elements_ (loggers w (logger_ out)) + Z.of_nat (List.length vals))
      /\ cout w' = cout w.
Proof.
  induction 1 as [|t s vals texts Hs _ IH]; intros w Hpos Hmax.
  - exists w. simpl. rewrite app_nil_r, Z.add_0_r.
    now destruct (loggers w (logger_ out)).
  - cbn [append_values]. unfold bind at 1.
    rewrite JsonLine_shl_run, (shl_logger_text _ _ _ Hs) by exact Hpos.
    set (e := elements_ (loggers w (logger_ out))) in *.
    change (List.length (t :: vals)) with (S (List.length vals)) in *.
    rewrite Z.mod_small by lia.
    match goal with
    | |- context [append_values out vals ?w1] =>
        destruct (IH w1) as (w' & Hrun & Hlg & Hcout)
    end.
    + rewrite loggers_set_logger. cbn [elements_]. lia.
    + rewrite loggers_set_logger. cbn [elements_]. lia.
    + exists w'. split; [exact Hrun|]. split; [|exact Hcout].
      rewrite Hlg, loggers_set_logger. cbn [oss_ elements_ fields_text].
      f_equal; [|lia]. now rewrite <- !app_assoc.
Qed.

(** X9. What decides the fate of a line is the number of values appended
    to it after the timestamp. With an odd number the destructor stops the
    program at its assertion and nothing reaches the sink; with an even
    number the line is written, a comma before each value at an even
    place and a colon before each at an odd place, whatever the values are.
    A statement [logger << t;] with a single value always ends at the
    assertion. *)
Theorem odd_number_of_values_aborts :
  forall (this : addr) (now : Z) (vals : list Value) (texts : list text)
         (w : World),
    Forall2 (fun t s => encode t = Some s) vals texts ->
    2 + Z.of_nat (List.length vals) < SIZE_MAX_plus_1 ->
    (Z.odd (Z.of_nat (List.length vals)) = true ->
       exists w', write_values this now vals w = Aborts w'
                  /\ cout w' = cout w)
    /\ (Z.even (Z.of_nat (List.length vals)) = true ->
       exists w', write_values this now vals w = Returns tt w'
                  /\ cout w'
                     = ostream_write
                         (record_line (body_text now [] ++ fields_text 2 texts))
                         (cout w))
    /\ (forall t s, encode t = Some s ->
          exists w', shl_statement this now t w = Aborts w'
                     /\ cout w' = cout w).
Proof.
  intros this now vals texts w Hvals Hmax.
  assert (Hrun : forall vals texts,
             Forall2 (fun t s => encode t = Some s) vals texts ->
             2 + Z.of_nat (List.length vals) < SIZE_MAX_plus_1 ->
             exists w1,
               (out <- JsonLogger_line this now ;;
                append_values out vals ;; ret out) w
               = Returns (JsonLine_ctor this) w1
               /\ loggers w1 this
                  = mkJsonLogger (body_text now [] ++ fields_text 2 texts)
                                 (2 + Z.of_nat (List.length vals))
               /\ cout w1 = cout w).
  { clear vals texts Hvals Hmax. intros vals texts Hvals Hmax. unfold bind.
    destruct (JsonLogger_line_run this now w) as (w1 & Hline & Hlg1 & Hcout1 & _).
    rewrite Hline.
    destruct (append_values_run (JsonLine_ctor this) vals texts Hvals w1)
      as (w2 & Happ & Hlg2 & Hcout2);
      cbn [logger_ JsonLine_ctor]; rewrite ?Hlg1; cbn [elements_];
      [lia|exact Hmax|].
    rewrite Happ. cbn [logger_ JsonLine_ctor] in Hlg2.
    rewrite Hlg1 in Hlg2. cbn [oss_ elements_] in Hlg2.
    exists w2. split; [reflexivity|]. split; [exact Hlg2|].
    now rewrite Hcout2. }
  split; [|split].
  - intros Hodd. destruct (Hrun vals texts Hvals Hmax) as (w1 & Hw1 & Hlg & Hcout).
    exists w1. split; [|exact Hcout].
    unfold write_values. unfold bind in *.
    destruct (JsonLogger_line this now w) as [a wa| |]; try discriminate Hw1.
    destruct (append_values a vals wa) as [[] wb| |]; try discriminate Hw1.
    injection Hw1 as -> ->.
    apply JsonLine_dtor_odd. cbn [logger_ JsonLine_ctor]. rewrite Hlg.
    cbn [elements_]. now rewrite Z.add_comm, Z.odd_add_even by (exists 1; lia).
  - intros Heven. destruct (Hrun vals texts Hvals Hmax) as (w1 & Hw1 & Hlg & Hcout).
    destruct (flush_line this w1) as (w2 & Hd & Hc2 & _).
    { rewrite Hlg. cbn [elements_]. now rewrite Z.even_add, Heven. }
    exists w2. split.
    + unfold write_values. unfold bind in *.
      destruct (JsonLogger_line this now w) as [a wa| |]; try discriminate Hw1.
      destruct (append_values a vals wa) as [[] wb| |]; try discriminate Hw1.
      injection Hw1 as -> ->. exact Hd.
    + now rewrite Hc2, Hlg, Hcout.
  - intros t s Hs.
    destruct (Hrun [t] [s]) as (w1 & Hw1 & Hlg & Hcout).
    { now repeat constructor. }
    { vm_compute. reflexivity. }
    exists w1. split; [|exact Hcout].
    unfold shl_statement, JsonLogger_shl. unfold bind in *.
    cbn [append_values] in Hw1. unfold bind, ret in Hw1.
    destruct (JsonLogger_line this now w) as [a wa| |]; try discriminate Hw1.
    destruct (JsonLine_shl a t wa) as [b wb| |]; try discriminate Hw1.
    injection Hw1 as -> ->. unfold ret.
    apply JsonLine_dtor_odd. cbn [logger_ JsonLine_ctor]. now rewrite Hlg.
Qed.

Lemma odd_number_of_values_aborts_witness :
  let w := mkWorld (fun _ => mkJsonLogger [] 0) (mkOstream [] false 64) in
  (exists w', write_values 0%nat 1 [VCharArray (c_literal "key")] w = Aborts w'
              /\ cout w' = cout w)
  /\ (exists w', shl_statement 0%nat 1 (VInt 7) w = Aborts w'
                 /\ cout w' = cout w).
Proof.
  intros w.
  destruct (odd_number_of_values_aborts
              0%nat 1 [VCharArray (c_literal "key")]
              [[DQUOTE] ++ lit "key" ++ [DQUOTE]] w)
    as (Hodd & _ & Hstmt).
  - repeat constructor.
  - reflexivity.
  - split; [exact (Hodd eq_refl)|exact (Hstmt (VInt 7) (lit "7") eq_refl)].
Defined.

(** * Properties of GenerateFileNode *)

(** ** Reading the file *)

Lemma file_lines_nil file : file_lines file = [] -> file = [].
Proof.
  destruct file as [|ch rest]; [reflexivity|]. cbn [file_lines].
  destruct (Ascii.eqb ch LF); [discriminate|].
  destruct (file_lines rest); discriminate.
Qed.

Lemma getline_file_lines file : forall line rest,
  getline file = Some (line, rest) ->
  file_lines file = line :: file_lines rest
  /\ (List.length rest < List.length file)%nat.
Proof.
  induction file as [|ch f IH]; intros line rest Hget; [discriminate Hget|].
  cbn [getline split_at file_lines] in *.
  destruct (Ascii.eqb ch LF).
  - injection Hget as <- <-. split; [reflexivity|simpl; lia].
  - destruct f as [|c2 f'].
    + cbn in Hget. injection Hget as <- <-. split; [reflexivity|simpl; lia].
    + destruct (split_at LF (c2 :: f')) as [before after] eqn:Hsplit.
      injection Hget as <- <-.
      destruct (IH before (match after with Some r => r | None => [] end))
        as [Hlines Hlen].
      { cbn [getline]. now rewrite Hsplit. }
      rewrite Hlines. split; [reflexivity|]. simpl in *. lia.
Qed.

Lemma read_loop_lines {V : Type} (gen : text -> V) fuel :
  forall file elements,
    (List.length file < fuel)%nat ->
    read_loop fuel gen file elements
    = option_map (fun ls => elements ++ map gen ls) (strip_all (file_lines file)).
Proof.
  induction fuel as [|fuel IH]; intros file elements Hfuel; [lia|].
  cbn [read_loop]. destruct (getline file) as [[line rest]|] eqn:Hget.
  - destruct (getline_file_lines file line rest Hget) as [Hlines Hlen].
    rewrite Hlines. cbn [strip_all].
    destruct (strip_cr line) as [l|]; [|reflexivity].
    rewrite IH by lia.
    destruct (strip_all (file_lines rest)); cbn [option_map map];
      [|reflexivity].
    now rewrite <- app_assoc.
  - destruct file as [|c f].
    + cbn. now rewrite app_nil_r.
    + cbn [getline] in Hget. destruct (split_at LF (c :: f)); discriminate Hget.
Qed.

Lemma file_lines_terminated line rest :
  ~ In LF line -> file_lines (line ++ LF :: rest) = line :: file_lines rest.
Proof.
  induction line as [|ch line IH]; intros Hline; [reflexivity|].
  cbn [app file_lines]. destruct (Ascii.eqb_spec ch LF) as [->|_].
  - exfalso; apply Hline; now left.
  - rewrite IH; [reflexivity|]. intros Hin; apply Hline; now right.
Qed.

Lemma file_lines_without_LF file : Forall (fun l => ~ In LF l) (file_lines file).
Proof.
  induction file as [|ch rest IH]; cbn [file_lines]; [constructor|].
  destruct (Ascii.eqb_spec ch LF) as [->|Hne].
  - constructor; [intros []|exact IH].
  - destruct (file_lines rest) as [|l ls].
    + constructor; [|constructor]. intros [E|[]]. congruence.
    + inversion IH; subst. constructor; [|assumption].
      intros [E|Hin]; [congruence|contradiction].
Qed.

Lemma file_lines_joined file :
  flat_map (fun l => l ++ [LF]) (file_lines file)
  = file ++ (if ends_with_newline file then [] else [LF]).
Proof.
  induction file as [|ch rest IH]; [reflexivity|].
  cbn [file_lines]. destruct (Ascii.eqb_spec ch LF) as [->|Hne].
  - cbn [flat_map app]. rewrite IH. destruct rest; reflexivity.
  - destruct rest as [|c2 rest'].
    + cbn. now rewrite (proj2 (Ascii.eqb_neq ch LF) Hne).
    + destruct (file_lines (c2 :: rest')) as [|l ls] eqn:Hlines.
      * apply file_lines_nil in Hlines. discriminate Hlines.
      * change (ends_with_newline (ch :: c2 :: rest'))
          with (ends_with_newline (c2 :: rest')).
        cbn [flat_map app] in *. now rewrite IH.
Qed.

Lemma strip_cr_none line : strip_cr line = None <-> line = [].
Proof.
  unfold strip_cr. split.
  - destruct (rev line) as [|ch before] eqn:Hrev.
    + intros _. apply (f_equal (@rev ascii)) in Hrev.
      now rewrite rev_involutive in Hrev.
    + destruct (Ascii.eqb ch CR); discriminate.
  - now intros ->.
Qed.

Lemma strip_all_none lines : strip_all lines = None <-> In [] lines.
Proof.
  induction lines as [|l ls IH]; cbn [strip_all In].
  - split; [discriminate|intros []].
  - destruct (strip_cr l) as [l'|] eqn:Hl.
    + assert (Hne : l <> []).
      { intros E. apply strip_cr_none in E. congruence. }
      destruct (strip_all ls) as [ls'|].
      * split; [discriminate|]. intros [E|Hin]; [congruence|].
        now apply IH in Hin.
      * split; [intros _; right; now apply IH|reflexivity].
    + apply strip_cr_none in Hl. split; [now left|reflexivity].
Qed.

Lemma file_lines_head_empty file ls :
  file_lines file = [] :: ls -> exists rest, file = LF :: rest.
Proof.
  destruct file as [|ch rest]; [discriminate|]. cbn [file_lines].
  destruct (Ascii.eqb_spec ch LF) as [->|_]; [now exists rest|].
  destruct (file_lines rest); discriminate.
Qed.

Lemma empty_line_in_tail file :
  In [] (tl (file_lines file))
  <-> exists before after, file = before ++ LF :: LF :: after.
Proof.
  split.
  - induction file as [|ch rest IH]; [intros []|].
    cbn [file_lines]. destruct (Ascii.eqb_spec ch LF) as [->|_].
    + cbn [tl]. intros Hin.
      destruct (file_lines rest) as [|l ls] eqn:Hlines; [destruct Hin|].
      destruct Hin as [->|Hin].
      * destruct (file_lines_head_empty _ _ Hlines) as [after ->].
        now exists [], after.
      * destruct (IH Hin) as (before & after & ->).
        now exists (LF :: before), after.
    + destruct (file_lines rest) as [|l ls]; [intros []|].
      cbn [tl] in *. intros Hin.
      destruct (IH Hin) as (before & after & ->).
      now exists (ch :: before), after.
  - intros (before & after & ->).
    induction before as [|ch before IH].
    + cbn [app file_lines]. rewrite Ascii.eqb_refl. now left.
    + cbn [app file_lines]. destruct (Ascii.eqb ch LF).
      * cbn [tl]. destruct (file_lines (before ++ LF :: LF :: after));
          [destruct IH|now right].
      * destruct (file_lines (before ++ LF :: LF :: after));
          [destruct IH|exact IH].
Qed.

Lemma empty_line_in_file file : In [] (file_lines file) <-> has_empty_line file.
Proof.
  unfold has_empty_line. rewrite <- empty_line_in_tail. split.
  - destruct (file_lines file) as [|l ls] eqn:Hlines; [intros []|].
    intros [->|Hin]; [left|now right].
    exact (file_lines_head_empty _ _ Hlines).
  - intros [[rest ->]|Hin].
    + cbn [file_lines]. rewrite Ascii.eqb_refl. now left.
    + destruct (file_lines file); [destruct Hin|now right].
Qed.

Lemma file_lines_of_lines terminator lines :
  Forall (fun l => ~ In LF l) lines ->
  ~ In LF terminator ->
  file_lines (file_of_lines terminator lines) = map (fun l => l ++ terminator) lines.
Proof.
  intros Hlines Hterm. unfold file_of_lines.
  induction Hlines as [|l ls Hl _ IH]; [reflexivity|].
  cbn [flat_map map]. rewrite app_assoc, <- app_assoc. cbn [app].
  rewrite file_lines_terminated, IH; [reflexivity|].
  intros Hin. apply in_app_or in Hin. tauto.
Qed.

Lemma strip_cr_CR line : strip_cr (line ++ [CR]) = Some line.
Proof.
  unfold strip_cr. rewrite rev_unit, Ascii.eqb_refl. now rewrite rev_involutive.
Qed.

Lemma strip_cr_other line :
  line <> [] -> last line NUL <> CR -> strip_cr line = Some line.
Proof.
  intros Hne Hlast. unfold strip_cr.
  destruct (rev line) as [|ch before] eqn:Hrev.
  - apply (f_equal (@rev ascii)) in Hrev. rewrite rev_involutive in Hrev.
    contradiction.
  - apply (f_equal (@rev ascii)) in Hrev. rewrite rev_involutive in Hrev.
    cbn [rev] in Hrev. subst line. rewrite last_last in Hlast.
    now rewrite (proj2 (Ascii.eqb_neq ch CR) Hlast).
Qed.

Lemma file_lines_final_newline file :
  ends_with_newline file = false -> file_lines (file ++ [LF]) = file_lines file.
Proof.
  induction file as [|ch rest IH]; [discriminate|].
  destruct rest as [|c2 rest'].
  - cbn. intros ->. reflexivity.
  - intros Hends. change (ends_with_newline (c2 :: rest') = false) in Hends.
    change ((ch :: c2 :: rest') ++ [LF]) with (ch :: ((c2 :: rest') ++ [LF])).
    cbn [file_lines]. cbn [file_lines] in IH. now rewrite (IH Hends).
Qed.

Lemma without_final_CR_last init x :
  without_final_CR (init ++ [x])
  = init ++ (if (x =? CR)%char then [] else [x]).
Proof.
  induction init as [|a init IH]; [reflexivity|].
  change ((a :: init) ++ [x]) with (a :: (init ++ [x])).
  cbn [without_final_CR]. rewrite IH.
  destruct init; reflexivity.
Qed.

Lemma strip_cr_spec line :
  strip_cr line = if is_empty line then None else Some (without_final_CR line).
Proof.
  destruct line as [|ch rest] using rev_ind; [reflexivity|].
  unfold strip_cr. rewrite rev_unit, without_final_CR_last.
  replace (is_empty (rest ++ [ch])) with false by (now destruct rest).
  destruct (Ascii.eqb ch CR).
  - now rewrite rev_involutive, app_nil_r.
  - reflexivity.
Qed.

Lemma strip_all_spec lines :
  strip_all lines
  = if existsb is_empty lines then None else Some (map without_final_CR lines).
Proof.
  induction lines as [|l ls IH]; [reflexivity|].
  cbn [strip_all existsb map]. rewrite strip_cr_spec, IH.
  destruct (is_empty l); [reflexivity|].
  now destruct (existsb is_empty ls).
Qed.

(** X11. The reading loop of [PushData] sees every line of the file, in
    order: when no line is empty, it appends to [elements_] the generator
    function applied to each line without the carriage return at its end,
    whatever the length of the file; when a line is empty its behaviour is
    undefined. The lines are the file cut at its newlines: none holds a
    newline, and each followed by a newline gives the file back, with a
    newline added when the file does not end with one. *)
Theorem reading_loop_maps_the_lines {V : Type} (generator_function_ : text -> V)
    (file : text) (elements_ : list V) :
  read_loop (S (List.length file)) generator_function_ file elements_
  = (if existsb is_empty (file_lines file) then None
     else Some (elements_
                ++ map (fun line => generator_function_ (without_final_CR line))
                       (file_lines file)))
  /\ Forall (fun l => ~ In LF l) (file_lines file)
  /\ file_of_lines [] (file_lines file)
     = file ++ (if ends_with_newline file then [] else [LF]).
Proof.
  split.
  { rewrite read_loop_lines by lia. rewrite strip_all_spec.
    destruct (existsb is_empty (file_lines file)); [reflexivity|].
    cbn [option_map]. now rewrite map_map. }
  split; [apply file_lines_without_LF|].
  unfold file_of_lines. cbn [app]. apply file_lines_joined.
Qed.

(** X12. The reading loop of [PushData] has undefined behaviour exactly on
    the files with an empty line, where [*line.rbegin()] dereferences the
    end of an empty string: the files that start with a newline or hold two
    newlines in a row. *)
Theorem empty_line_is_undefined {V : Type} (generator_function_ : text -> V)
    (file : text) (elements_ : list V) :
  read_loop (S (List.length file)) generator_function_ file elements_ = None
  <-> has_empty_line file.
Proof.
  rewrite read_loop_lines by lia. rewrite <- empty_line_in_file, <- strip_all_none.
  destruct (strip_all (file_lines file)); cbn [option_map];
    split; intros H; congruence.
Qed.

(** X13. Windows and Unix line ends give the same elements: a file whose
    lines end with carriage return and newline is read as its lines, and so
    is the file with newlines only when no line is empty or ends with a
    carriage return of its own. *)
Theorem line_ends_are_stripped {V : Type} (generator_function_ : text -> V)
    (lines : list text) (elements_ : list V) :
  Forall (fun l => ~ In LF l) lines ->
  let crlf := file_of_lines [CR] lines in
  let lf := file_of_lines [] lines in
  read_loop (S (List.length crlf)) generator_function_ crlf elements_
  = Some (elements_ ++ map generator_function_ lines)
  /\ (Forall (fun l => l <> [] /\ last l NUL <> CR) lines ->
      read_loop (S (List.length lf)) generator_function_ lf elements_
      = Some (elements_ ++ map generator_function_ lines)).
Proof.
  intros Hlines crlf lf. subst crlf lf. split.
  - rewrite read_loop_lines by lia.
    rewrite file_lines_of_lines;
      [|exact Hlines|intros [E|[]]; discriminate E].
    assert (Hstrip : strip_all (map (fun l => l ++ [CR]) lines) = Some lines).
    { clear Hlines. induction lines as [|l ls IH]; [reflexivity|].
      cbn [map strip_all]. now rewrite strip_cr_CR, IH. }
    now rewrite Hstrip.
  - intros Hplain. rewrite read_loop_lines by lia.
    rewrite file_lines_of_lines; [|exact Hlines|intros []].
    assert (Hstrip : strip_all (map (fun l => l ++ []) lines) = Some lines).
    { clear Hlines. induction Hplain as [|l ls [Hne Hlast] _ IH]; [reflexivity|].
      cbn [map strip_all]. rewrite app_nil_r.
      now rewrite (strip_cr_other l Hne Hlast), IH. }
    now rewrite Hstrip.
Qed.

Lemma line_ends_are_stripped_witness :
  let lines := [lit "ab"; lit "c"] in
  let gen := fun l : text => List.length l in
  read_loop (S (List.length (file_of_lines [CR] lines))) gen
            (file_of_lines [CR] lines) [7%nat]
  = Some [7; 2; 1]%nat
  /\ read_loop (S (List.length (file_of_lines [] lines))) gen
               (file_of_lines [] lines) [7%nat]
     = Some [7; 2; 1]%nat.
Proof.
  assert (Hlines : Forall (fun l => ~ In LF l) [lit "ab"; lit "c"]).
  { repeat constructor; cbn; intros H;
      repeat (destruct H as [H|H]; [discriminate H|]); exact H. }
  destruct (line_ends_are_stripped (fun l : text => List.length l)
              [lit "ab"; lit "c"] [7%nat] Hlines) as [Hcrlf Hlf].
  split; [exact Hcrlf|]. apply Hlf.
  repeat constructor; cbn; discriminate.
Defined.

(** X14. The newline at the end of the file is optional: a file that does
    not end with a newline is read as the file with the newline added. *)
Theorem final_newline_is_optional {V : Type} (generator_function_ : text -> V)
    (file : text) (elements_ : list V) :
  ends_with_newline file = false ->
  read_loop (S (List.length (file ++ [LF]))) generator_function_
            (file ++ [LF]) elements_
  = read_loop (S (List.length file)) generator_function_ file elements_.
Proof.
  intros Hends. rewrite !read_loop_lines by lia.
  now rewrite file_lines_final_newline.
Qed.

Lemma final_newline_is_optional_witness :
  read_loop 6 (fun l : text => l) (lit "a" ++ [LF] ++ lit "bc" ++ [LF]) []
  = read_loop 5 (fun l : text => l) (lit "a" ++ [LF] ++ lit "bc") [].
Proof.
  exact (final_newline_is_optional (fun l : text => l)
           (lit "a" ++ [LF] ++ lit "bc") [] eq_refl).
Defined.

(** ** The share of a worker *)

Lemma size_t_of_small z : 0 <= z < SIZE_MAX_plus_1 -> size_t_of z = z.
Proof. intros Hz. unfold size_t_of. now apply Z.mod_small. Qed.

Lemma local_elements_of_run size_ num_workers my_rank :
  0 < num_workers < SIZE_MAX_plus_1 ->
  0 <= size_ < SIZE_MAX_plus_1 ->
  local_elements_of size_ num_workers my_rank
  = Some (if my_rank =? num_workers - 1
          then size_ / num_workers + size_ mod num_workers
          else size_ / num_workers).
Proof.
  intros Hw Hs. unfold local_elements_of.
  destruct (Z.eqb_spec num_workers 0) as [E|_]; [lia|].
  rewrite (size_t_of_small (num_workers - 1)) by lia.
  rewrite (Z.eqb_sym (num_workers - 1) my_rank).
  destruct (my_rank =? num_workers - 1); [|reflexivity].
  pose proof (Z.div_mod size_ num_workers ltac:(lia)) as Hdiv.
  pose proof (Z.mod_pos_bound size_ num_workers ltac:(lia)) as Hmod.
  assert (Hq : 0 <= size_ / num_workers) by (apply Z.div_pos; lia).
  assert (Hle : (num_workers - 1) * (size_ / num_workers) <= size_) by nia.
  rewrite (size_t_of_small ((num_workers - 1) * (size_ / num_workers))) by nia.
  rewrite size_t_of_small by nia.
  f_equal. nia.
Qed.

Lemma sum_of_constant (f : nat -> Z) (c : Z) (n : nat) :
  (forall r, (r < n)%nat -> f r = c) ->
  fold_right Z.add 0 (map f (seq 0 n)) = Z.of_nat n * c.
Proof.
  induction n as [|n IH]; intros Hf; [reflexivity|].
  rewrite seq_S, map_app, fold_right_app. cbn [map fold_right plus].
  assert (Hshift : forall l acc,
             fold_right Z.add acc l = fold_right Z.add 0 l + acc).
  { induction l as [|x l IHl]; intros acc; cbn [fold_right]; [lia|].
    rewrite IHl. lia. }
  rewrite Hshift, IH by (intros r Hr; apply Hf; lia).
  rewrite (Hf n) by lia. lia.
Qed.

(** X15. The shares of the workers add up to the size of the output: every
    worker but the last gets [size_ / num_workers] elements, the last gets
    the remainder on top, and no step of the unsigned arithmetic wraps
    around. *)
Theorem shares_add_up_to_size (size_ num_workers : Z) :
  0 < num_workers < SIZE_MAX_plus_1 ->
  0 <= size_ < SIZE_MAX_plus_1 ->
  (forall my_rank, 0 <= my_rank < num_workers ->
     local_elements_of size_ num_workers my_rank
     = Some (if my_rank =? num_workers - 1
             then size_ / num_workers + size_ mod num_workers
             else size_ / num_workers))
  /\ sum_of_shares size_ num_workers = size_.
Proof.
  intros Hw Hs. split.
  - intros my_rank _. now apply local_elements_of_run.
  - unfold sum_of_shares.
    replace (Z.to_nat num_workers) with (S (Z.to_nat (num_workers - 1))) by lia.
    rewrite seq_S, map_app, fold_right_app. cbn [map fold_right plus].
    rewrite (local_elements_of_run size_ num_workers) by assumption.
    replace (Z.of_nat (Z.to_nat (num_workers - 1)) =? num_workers - 1)
      with true by (symmetry; apply Z.eqb_eq; lia).
    assert (Hshift : forall l acc,
               fold_right Z.add acc l = fold_right Z.add 0 l + acc).
    { induction l as [|x l IHl]; intros acc; cbn [fold_right]; [lia|].
      rewrite IHl. lia. }
    rewrite Hshift.
    rewrite (sum_of_constant _ (size_ / num_workers)).
    + rewrite Z2Nat.id by lia.
      rewrite (Z.div_mod size_ num_workers) at 4 by lia. ring.
    + intros r Hr. rewrite local_elements_of_run by assumption.
      replace (Z.of_nat r =? num_workers - 1) with false; [reflexivity|].
      symmetry. apply Z.eqb_neq. lia.
Qed.

Lemma shares_add_up_to_size_witness :
  local_elements_of 7 3 0 = Some 2
  /\ local_elements_of 7 3 2 = Some 3
  /\ sum_of_shares 7 3 = 7.
Proof.
  destruct (shares_add_up_to_size 7 3) as [Hshare Hsum];
    [vm_compute; split; reflexivity|vm_compute; split; [discriminate|reflexivity]|].
  split; [apply (Hshare 0); lia|].
  split; [apply (Hshare 2); lia|exact Hsum].
Defined.

(** ** PushData *)

Lemma log_done_record logger now w :
  log_done logger now w = write_record logger now done_pairs w.
Proof.
  unfold log_done, write_record, JsonLogger_shl, done_pairs.
  cbn [append_pairs]. unfold bind, ret.
  destruct (JsonLogger_line logger now w) as [out w1|w1|]; [|reflexivity..].
  destruct (JsonLine_shl out _ w1) as [o2 w2|w2|]; [|reflexivity..].
  destruct (JsonLine_shl out _ w2) as [o3 w3|w3|]; [|reflexivity..].
  destruct (JsonLine_shl out _ w3) as [o4 w4|w4|]; [|reflexivity..].
  destruct (JsonLine_shl out _ w4) as [o5 w5|w5|]; reflexivity.
Qed.

Lemma log_done_run logger now w :
  exists w',
    log_done logger now w = Returns tt w'
    /\ cout w' = ostream_write (done_line now) (cout w)
    /\ forall a, a <> logger -> loggers w' a = loggers w a.
Proof.
  pose (kvs := [(quoted (lit "class"), quoted (lit "GenerateFileNode"));
                (quoted (lit "event"), quoted (lit "done"))]).
  destruct (write_record_run logger now done_pairs kvs w) as (w' & Hrun & Hcout & _).
  { repeat constructor. }
  { vm_compute. reflexivity. }
  exists w'. rewrite log_done_record. split; [exact Hrun|].
  split.
  { rewrite Hcout. f_equal. unfold record_line, body_text, done_line, kvs.
    cbn [pairs_text flat_map fst snd]. rewrite <- !app_assoc. reflexivity. }
  pose proof (keeps_after_line logger now
                (fun out => append_pairs out done_pairs ;; JsonLine_dtor out)) as Hkeep.
  specialize (Hkeep (keeps_bind _ _ _ (keeps_append_pairs (JsonLine_ctor logger) done_pairs)
                       (fun _ => keeps_JsonLine_dtor (JsonLine_ctor logger))) w).
  change (bind (JsonLogger_line logger now)
            (fun out => append_pairs out done_pairs ;; JsonLine_dtor out) w)
    with (write_record logger now done_pairs w) in Hkeep.
  rewrite Hrun in Hkeep. exact Hkeep.
Qed.

Lemma push_loop_run {V : Type} (elements_ : list V) (draws : list Z) :
  Forall (fun r => 0 <= r < Z.of_nat (List.length elements_)) draws ->
  exists pushed,
    push_loop elements_ draws = Some pushed
    /\ map Some pushed = map (fun r => nth_error elements_ (Z.to_nat r)) draws.
Proof.
  induction 1 as [|r rest Hr _ (pushed & Hrun & Hitems)];
    [now exists []|].
  cbn [push_loop map].
  destruct (nth_error elements_ (Z.to_nat r)) as [item|] eqn:Hitem.
  - exists (item :: pushed). rewrite Hrun. cbn [option_map map].
    now rewrite Hitems.
  - apply nth_error_None in Hitem. lia.
Qed.

(** X16. [PushData] on a file that exists and has no empty line: it returns,
    [elements_] has grown by the generator function applied to the lines of
    the file, the worker has pushed its share of items and no more, the
    i-th pushed item is the element at the i-th draw, and [std::cout] is
    sent the one record with class GenerateFileNode and event done, after
    the pushes; the other loggers are left as they were. *)
Theorem PushData_pushes_the_share {V : Type} (generator_function_ : text -> V)
    (content : text) (size_ num_workers my_rank : Z) (rand : nat -> Z)
    (logger : addr) (now : Z) (elements_ : list V) (lines : list text)
    (w : World) :
  strip_all (file_lines content) = Some lines ->
  0 < num_workers < SIZE_MAX_plus_1 ->
  0 <= size_ < SIZE_MAX_plus_1 ->
  0 <= my_rank < num_workers ->
  let elements' := elements_ ++ map generator_function_ lines in
  let local_elements :=
    if my_rank =? num_workers - 1
    then size_ / num_workers + size_ mod num_workers
    else size_ / num_workers in
  0 < Z.of_nat (List.length elements') < SIZE_MAX_plus_1 ->
  (forall i, 0 <= rand i <= distribution_max elements') ->
  exists pushed w',
    PushData generator_function_ (Some content) size_ num_workers my_rank
             rand logger now elements_ w
    = Returns (elements', pushed) w'
    /\ Z.of_nat (List.length pushed) = local_elements
    /\ (forall i, (i < List.length pushed)%nat ->
          nth_error pushed i = nth_error elements' (Z.to_nat (rand i)))
    /\ Forall (fun item => In item elements') pushed
    /\ cout w' = ostream_write (done_line now) (cout w)
    /\ forall a, a <> logger -> loggers w' a = loggers w a.
Proof.
  intros Hlines Hw Hs Hrank elements' local_elements Hlen Hrand.
  assert (Hshare : 0 <= local_elements).
  { subst local_elements.
    pose proof (Z.mod_pos_bound size_ num_workers ltac:(lia)).
    assert (0 <= size_ / num_workers) by (apply Z.div_pos; lia).
    destruct (my_rank =? num_workers - 1); lia. }
  assert (Hmax : distribution_max elements' = Z.of_nat (List.length elements') - 1).
  { unfold distribution_max. apply size_t_of_small. lia. }
  destruct (push_loop_run elements' (map rand (seq 0 (Z.to_nat local_elements))))
    as (pushed & Hpush & Hitems).
  { apply Forall_forall. intros r Hin. apply in_map_iff in Hin.
    destruct Hin as (i & <- & _). specialize (Hrand i). lia. }
  destruct (log_done_run logger now w) as (w' & Hlog & Hcout & Hframe).
  exists pushed, w'.
  assert (Hcount : List.length pushed = Z.to_nat local_elements).
  { apply (f_equal (@List.length _)) in Hitems.
    now rewrite !length_map, length_seq in Hitems. }
  split.
  { unfold PushData, bind, defined.
    rewrite read_loop_lines by lia. rewrite Hlines. cbn [option_map].
    rewrite local_elements_of_run by assumption.
    fold local_elements. fold elements'. rewrite Hpush, Hlog. reflexivity. }
  split; [lia|].
  assert (Hnth : forall i, (i < List.length pushed)%nat ->
            nth_error pushed i = nth_error elements' (Z.to_nat (rand i))).
  { intros i Hi.
    pose proof (f_equal (fun l => nth_error l i) Hitems) as Hi'.
    cbn beta in Hi'. rewrite !nth_error_map in Hi'.
    rewrite nth_error_seq in Hi'.
    destruct (nth_error pushed i) as [item|] eqn:Hitem;
      [|apply nth_error_None in Hitem; lia].
    destruct (Nat.ltb_spec i (Z.to_nat local_elements)) as [_|Hge]; [|lia].
    cbn [option_map plus] in Hi'. now injection Hi' as <-. }
  split; [exact Hnth|].
  split; [|split; [exact Hcout|exact Hframe]].
  apply Forall_forall. intros item Hin.
  apply In_nth_error in Hin. destruct Hin as [i Hi].
  assert (Hlt : (i < List.length pushed)%nat).
  { apply nth_error_Some. congruence. }
  rewrite (Hnth i Hlt) in Hi. now apply nth_error_In in Hi.
Qed.

Lemma PushData_pushes_the_share_witness :
  let w := mkWorld (fun _ => mkJsonLogger [] 0) (mkOstream [] false 64) in
  let content := lit "ab" ++ [CR; LF] ++ lit "c" ++ [LF] ++ lit "d" in
  let rand := fun i : nat => Z.of_nat i mod 3 in
  exists pushed w',
    PushData (fun l : text => l) (Some content) 7 3 2 rand 0%nat 5 [] w
    = Returns ([lit "ab"; lit "c"; lit "d"], pushed) w'
    /\ pushed = [lit "ab"; lit "c"; lit "d"]
    /\ sent (cout w') = done_line 5.
Proof.
  intros w content rand.
  destruct (PushData_pushes_the_share (fun l : text => l) content 7 3 2 rand
              0%nat 5 [] [lit "ab"; lit "c"; lit "d"] w)
    as (pushed & w' & Hrun & Hcount & Hnth & _ & Hcout & _).
  - reflexivity.
  - vm_compute. split; reflexivity.
  - vm_compute. split; [discriminate|reflexivity].
  - lia.
  - vm_compute. split; reflexivity.
  - intros i. change (distribution_max _) with 2. subst rand. cbv beta.
    pose proof (Z.mod_pos_bound (Z.of_nat i) 3). lia.
  - exists pushed, w'. split; [exact Hrun|]. split.
    + assert (Hthree : List.length pushed = 3%nat)
        by (apply Nat2Z.inj; rewrite Hcount; reflexivity).
      destruct pushed as [|p0 [|p1 [|p2 [|p3 rest]]]]; try discriminate Hthree.
      pose proof (Hnth 0%nat ltac:(simpl; lia)) as H0.
      pose proof (Hnth 1%nat ltac:(simpl; lia)) as H1.
      pose proof (Hnth 2%nat ltac:(simpl; lia)) as H2.
      vm_compute in H0, H1, H2.
      injection H0 as ->. injection H1 as ->. injection H2 as ->.
      reflexivity.
    + rewrite Hcout. reflexivity.
Defined.

(** X17. With no element to draw from, [PushData] has undefined behaviour
    as soon as the worker has an item to push, and only then: on an empty
    file and an empty [elements_], the upper bound of the distribution
    wraps around to the largest [size_t], and every draw indexes the empty
    vector; the record is then not written. A missing file stops [PushData]
    at the assertion, before anything is read, pushed or logged. *)
Theorem PushData_without_elements_is_undefined {V : Type}
    (generator_function_ : text -> V) (size_ num_workers my_rank : Z)
    (rand : nat -> Z) (logger : addr) (now : Z) (w : World)
    (local_elements : Z) :
  local_elements_of size_ num_workers my_rank = Some local_elements ->
  (PushData generator_function_ (Some []) size_ num_workers my_rank rand
            logger now [] w
   = Undefined
   <-> 0 < local_elements)
  /\ distribution_max (@nil V) = SIZE_MAX_plus_1 - 1
  /\ forall elements_,
       PushData generator_function_ None size_ num_workers my_rank rand
                logger now elements_ w
       = Aborts w.
Proof.
  intros Hshare. split; [|split; [reflexivity|reflexivity]].
  unfold PushData, bind, defined. cbn [read_loop List.length getline].
  rewrite Hshare.
  destruct (Z.to_nat local_elements) as [|n] eqn:Hn.
  - cbn [seq map push_loop].
    destruct (log_done_run logger now w) as (w' & Hlog & _). rewrite Hlog.
    split; [discriminate|lia].
  - cbn [seq map push_loop]. destruct (Z.to_nat (rand 0%nat));
      (split; [lia|reflexivity]).
Qed.

Lemma PushData_without_elements_is_undefined_witness :
  PushData (fun l : text => l) (Some []) 1 2 1 (fun _ => 0) 0%nat 5 []
           (mkWorld (fun _ => mkJsonLogger [] 0) (mkOstream [] false 64))
  = Undefined.
Proof.
  apply (PushData_without_elements_is_undefined (fun l : text => l) 1 2 1
           (fun _ => 0) 0%nat 5
           (mkWorld (fun _ => mkJsonLogger [] 0) (mkOstream [] false 64))
           1 eq_refl).
  lia.
Defined.

(** X18. [PushData] stops at an assertion only when the file is missing:
    it aborts exactly when the file cannot be opened, and then the world is
    as it was; the record it logs always has as many keys as values, so the
    destructor of its line never fails. *)
Theorem PushData_aborts_only_on_missing_file {V : Type}
    (generator_function_ : text -> V) (file : option text)
    (size_ num_workers my_rank : Z) (rand : nat -> Z) (logger : addr)
    (now : Z) (elements_ : list V) (w w' : World) :
  PushData generator_function_ file size_ num_workers my_rank rand logger now
           elements_ w
  = Aborts w'
  <-> file = None /\ w' = w.
Proof.
  split.
  - destruct file as [content|]; cbn [PushData].
    + unfold bind, defined.
      destruct (read_loop _ _ _ _); [|discriminate].
      destruct (local_elements_of _ _ _); [|discriminate].
      destruct (push_loop _ _); [|discriminate].
      destruct (log_done_run logger now w) as (w1 & Hlog & _).
      rewrite Hlog. discriminate.
    + intros H. injection H as <-. split; reflexivity.
  - intros [-> ->]. reflexivity.
Qed.

(** X19. [PushData] does not clear [elements_] before it reads: called a
    second time it reads the file again behind the elements of the first
    call, which are then held twice; after [Dispose] it holds the elements
    of the file once. *)
Theorem second_PushData_reads_the_file_again {V : Type}
    (generator_function_ : text -> V) (file : text)
    (elements_ after_first : list V) :
  read_loop (S (List.length file)) generator_function_ file elements_
  = Some after_first ->
  let read := skipn (List.length elements_) after_first in
  after_first = elements_ ++ read
  /\ read_loop (S (List.length file)) generator_function_ file after_first
     = Some (elements_ ++ read ++ read)
  /\ read_loop (S (List.length file)) generator_function_ file
               (Dispose after_first)
     = Some read.
Proof.
  rewrite !read_loop_lines by lia. intros Hfirst.
  destruct (strip_all (file_lines file)) as [lines|]; [|discriminate Hfirst].
  cbn [option_map] in *. injection Hfirst as <-. cbv zeta.
  rewrite skipn_app, skipn_all, Nat.sub_diag. cbn [skipn app Dispose].
  split; [reflexivity|]. split; [now rewrite <- app_assoc|reflexivity].
Qed.

Lemma second_PushData_reads_the_file_again_witness :
  let file := lit "a" ++ [LF] ++ lit "b" ++ [LF] in
  read_loop 5 (fun l : text => l) file [lit "x"; lit "a"; lit "b"]
  = Some [lit "x"; lit "a"; lit "b"; lit "a"; lit "b"]
  /\ read_loop 5 (fun l : text => l) file (Dispose [lit "x"; lit "a"; lit "b"])
     = Some [lit "a"; lit "b"].
Proof.
  intros file.
  exact (proj2 (second_PushData_reads_the_file_again (fun l : text => l) file
                  [lit "x"] [lit "x"; lit "a"; lit "b"] eq_refl)).
Defined.
